(** * String Analyzer Service: utils.js, db.js and routes.js

    A shallow embedding of the string metrics, the natural-language filter
    parser, the JSON-backed record store and the route handlers, followed
    by the properties proved about them.

    Conventions of the embedding.
    - A JavaScript string is the list of its UTF-16 code units.  The string
      iterator ([[...value]], [for (const ch of value)]) is [codePoints].
    - A JavaScript Number is [number]: the exact rational an IEEE-754
      binary64 value denotes, an infinity, or NaN.  Arithmetic rounds with
      [binary64] (round to nearest, ties to even).  The two zeros are
      identified: nothing in this program tells them apart.
    - A plain object used as a dictionary is a [gmap].  Keys here are single
      code points or 64-digit hexadecimal digests, never the name of a
      property inherited from [Object.prototype], so [obj[k]] is a lookup
      among own properties.
    - Built-ins that the program only calls ([String.prototype.toLowerCase],
      the SHA-256 digest, [decodeURIComponent]) are variables of the section
      [Host].
    - A route handler is a function of what it reads from the request, of
      the clock and of the outcome of the write to the data file, on the
      store held in memory.  How Express picks the handler for a URL and how
      it fills [req.params] and [req.query] is outside the embedding; what
      is used of it is that [req.params] holds the segments of the path
      already decoded, so that for a request naming a string the parameter
      is that string. *)

From Stdlib Require Import ZArith NArith QArith Qreduction String Ascii List Lia.
From Stdlib Require Import Floats.SpecFloat.
From stdpp Require Import gmap strings list sorting.
From Equations Require Import Equations.

Set Warnings "-register-all,-clear-no-such-hyp".

(** ** JavaScript strings *)

Abbreviation jsstring := (list N).

(** An ASCII literal as a JavaScript string. *)
Definition js (s : string) : jsstring := N_of_ascii <$> list_ascii_of_string s.

Definition isHighSurrogate (u : N) : bool := ((0xD800 <=? u) && (u <=? 0xDBFF))%N.
Definition isLowSurrogate (u : N) : bool := ((0xDC00 <=? u) && (u <=? 0xDFFF))%N.

(** The string iterator: one element per code point, a surrogate pair
    counting as one element and a lone surrogate as one element. *)
Fixpoint codePoints (s : jsstring) : list jsstring :=
  match s with
  | [] => []
  | u :: s' =>
      match s' with
      | v :: s'' =>
          if isHighSurrogate u && isLowSurrogate v
          then [u; v] :: codePoints s''
          else [u] :: codePoints s'
      | [] => [[u]]
      end
  end.

(** WhiteSpace and LineTerminator code units: what [trim] strips and what
    [\s] matches. *)
Definition isWhiteSpace (u : N) : bool :=
  bool_decide (u ∈ [9; 10; 11; 12; 13; 32; 160; 5760; 8232; 8233; 8239; 8287; 12288; 65279]%N)
  || ((8192 <=? u) && (u <=? 8202))%N.

Fixpoint trimStart (s : jsstring) : jsstring :=
  match s with
  | u :: s' => if isWhiteSpace u then trimStart s' else s
  | [] => []
  end.

Definition trim (s : jsstring) : jsstring :=
  reverse (trimStart (reverse (trimStart s))).

(** [s.split(/\s+/)]: [cur] is the token being read (reversed), [insep]
    tells whether the scan is inside a run of separators. *)
Fixpoint split_whitespace (cur : jsstring) (insep : bool) (s : jsstring) : list jsstring :=
  match s with
  | [] => [reverse cur]
  | u :: s' =>
      if isWhiteSpace u then
        if insep then split_whitespace [] true s'
        else reverse cur :: split_whitespace [] true s'
      else split_whitespace (u :: cur) false s'
  end.

(** ** utils.js: metrics *)

Definition charLength (value : jsstring) : nat := length (codePoints value).

Definition charFrequencyMap (value : jsstring) : gmap jsstring nat :=
  foldl (λ map ch, <[ch := default 0 (map !! ch) + 1]> map) ∅ (codePoints value).

Definition uniqueCharacters (value : jsstring) : nat :=
  size (list_to_set (codePoints value) : gset jsstring).

Definition wordCount (value : jsstring) : nat :=
  match value with
  | [] => 0
  | _ =>
      let tokens := split_whitespace [] false (trim value) in
      match tokens with
      | [[]] => 0
      | _ => length (filter (λ t, t ≠ []) tokens)
      end
  end.

(** The loop of [isPalindrome]: [i] runs up from 0, [j] down from
    [arr.length - 1] (which is -1 for the empty array). *)
Equations isPalindrome_loop (arr : list jsstring) (i j : Z) : bool
  by wf (Z.to_nat (j - i)) lt :=
  isPalindrome_loop arr i j with decide (i < j)%Z := {
    | left _ =>
        if decide (arr !! Z.to_nat i ≠ arr !! Z.to_nat j)
        then false
        else isPalindrome_loop arr (i + 1) (j - 1)
    | right _ => true }.
Next Obligation. lia. Qed.

(** Number of occurrences of the code point [c] in [value]. *)
Definition occurrences (c : jsstring) (value : jsstring) : nat :=
  length (filter (λ x, x = c) (codePoints value)).

(** Sum of the counts of a frequency map. *)
Definition totalCount (m : gmap jsstring nat) : nat :=
  map_fold (λ _ n acc, n + acc) 0 m.

(** ** JavaScript Numbers *)

Inductive number :=
  | NaN
  | Finite (q : Q)
  | Infinity (negative : bool).

(** The fraction [a / (b * 2^e)] as a numerator and a denominator. *)
Definition scale (a b e : Z) : Z * Z :=
  ((a * 2 ^ Z.max 0 (- e))%Z, (b * 2 ^ Z.max 0 e)%Z).

(** The integer part of the binary logarithm of [a / b], for positive [a]
    and [b]. *)
Definition floor_log2 (a b : Z) : Z :=
  let l0 := (Z.log2 a - Z.log2 b)%Z in
  let '(n, d) := scale a b l0 in
  if (n <? d)%Z then (l0 - 1)%Z else l0.

(** The integer nearest to [n / d], the even one of the two when [n / d]
    lies half way. *)
Definition round_half_even (n d : Z) : Z :=
  let m0 := (n / d)%Z in
  let r := (n mod d)%Z in
  if (2 * r <? d)%Z then m0
  else if (d <? 2 * r)%Z then (m0 + 1)%Z
  else if Z.even m0 then m0 else (m0 + 1)%Z.

(** The rational [m * 2^e], in lowest terms. *)
Definition dyadic (m e : Z) : Q :=
  if (0 <=? e)%Z then inject_Z (m * 2 ^ e)
  else Qred (Qmake m (Z.to_pos (2 ^ (- e)))).

(** Rounding of a rational to binary64, round to nearest, ties to even:
    53 significant bits, least exponent -1074, overflow from 2^1024.
    [e] is the exponent of the unit in the last place and [m] the rounded
    significand, so that the result is [m * 2^e]. *)
Definition binary64 (q : Q) : number :=
  let a := Z.abs (Qnum q) in
  let b := Zpos (Qden q) in
  let neg := (Qnum q <? 0)%Z in
  if (a =? 0)%Z then Finite 0 else
  let e := Z.max (floor_log2 a b - 52) (-1074) in
  let '(n, d) := scale a b e in
  let m := round_half_even n d in
  if (0 <=? e)%Z && (2 ^ 1024 <=? m * 2 ^ e)%Z then Infinity neg
  else Finite (dyadic (if neg then - m else m) e).

Arguments binary64 : simpl never.

(** The same rounding taken from the IEEE-754 specification of the Standard
    Library, as the binary64 quotient of two integers; [binary64] is
    checked against it below. *)
Definition spec_of_Z (z : Z) : spec_float :=
  match z with
  | Z0 => S754_zero false
  | Zpos p => S754_finite false p 0
  | Zneg p => S754_finite true p 0
  end.

Definition number_of_spec (f : spec_float) : number :=
  match f with
  | S754_zero _ => Finite 0
  | S754_infinity s => Infinity s
  | S754_nan => NaN
  | S754_finite s m e => Finite (dyadic (if s then Zneg m else Zpos m) e)
  end.

Definition binary64_reference (q : Q) : number :=
  number_of_spec (SFdiv 53 1024 (spec_of_Z (Qnum q)) (spec_of_Z (Zpos (Qden q)))).

Definition num_of_Z (z : Z) : number := binary64 (inject_Z z).
Definition num_of_nat (n : nat) : number := num_of_Z (Z.of_nat n).

Definition isNaN (x : number) : bool :=
  match x with NaN => true | _ => false end.

(** [x + y] and [x - y]: the exact result, rounded. *)
Definition num_add (x y : number) : number :=
  match x, y with
  | NaN, _ | _, NaN => NaN
  | Finite a, Finite b => binary64 (a + b)
  | Infinity s, Infinity t => if Bool.eqb s t then Infinity s else NaN
  | Infinity s, Finite _ | Finite _, Infinity s => Infinity s
  end.

Definition num_opp (x : number) : number :=
  match x with
  | NaN => NaN
  | Finite a => Finite (- a)
  | Infinity s => Infinity (negb s)
  end.

Definition num_sub (x y : number) : number := num_add x (num_opp y).

(** [x < y], false when either side is NaN. *)
Definition num_ltb (x y : number) : bool :=
  match x, y with
  | NaN, _ | _, NaN => false
  | Finite a, Finite b => if Qlt_le_dec a b then true else false
  | Finite _, Infinity s => negb s
  | Infinity s, Finite _ => s
  | Infinity s, Infinity t => s && negb t
  end.

(** [x > y]. *)
Definition num_gtb (x y : number) : bool := num_ltb y x.

(** [x === y] on Numbers. *)
Definition num_eqb (x y : number) : bool :=
  match x, y with
  | Finite a, Finite b => Qeq_bool a b
  | Infinity s, Infinity t => Bool.eqb s t
  | _, _ => false
  end.

(** [Math.max(x, y)]. *)
Definition Math_max (x y : number) : number :=
  match x, y with
  | NaN, _ | _, NaN => NaN
  | _, _ => if num_ltb x y then y else x
  end.

(** The order and the equality of the values denoted, for stating
    properties; neither holds of NaN. *)
Definition num_le (x y : number) : Prop :=
  match x, y with
  | NaN, _ | _, NaN => False
  | Finite a, Finite b => (a <= b)%Q
  | Infinity s, Finite _ => s = true
  | Finite _, Infinity s => s = false
  | Infinity s, Infinity t => s = true ∨ t = false
  end.

Definition num_eq (x y : number) : Prop :=
  match x, y with
  | Finite a, Finite b => (a == b)%Q
  | Infinity s, Infinity t => s = t
  | _, _ => False
  end.

(** *** Numeric literals *)

Definition isDigit (u : N) : bool := ((48 <=? u) && (u <=? 57))%N.

(** Value of a hexadecimal digit, if it is one. *)
Definition hexDigit (u : N) : option Z :=
  if isDigit u then Some (Z.of_N u - 48)%Z
  else if ((97 <=? u) && (u <=? 102))%N then Some (Z.of_N u - 87)%Z
  else if ((65 <=? u) && (u <=? 70))%N then Some (Z.of_N u - 55)%Z
  else None.

(** Value of a non-empty run of digits in [radix]; [None] when the run is
    empty or holds a code unit that is not a digit of that radix. *)
Fixpoint digitsValue_from (radix acc : Z) (ds : jsstring) : option Z :=
  match ds with
  | [] => Some acc
  | d :: ds' =>
      match hexDigit d with
      | Some v => if (v <? radix)%Z then digitsValue_from radix (acc * radix + v) ds' else None
      | None => None
      end
  end.

Definition digitsValue (radix : Z) (ds : jsstring) : option Z :=
  match ds with
  | [] => None
  | _ => digitsValue_from radix 0 ds
  end.

(** [parseInt(ds, 10)] on a string; the program calls it on runs of decimal
    digits only.  The result is the Number nearest to the integer denoted
    (past twenty significant digits the language lets an engine round the
    digits first; the engines in use do not). *)
Definition parseInt (ds : jsstring) : number :=
  let '(neg, body) :=
    match trimStart ds with
    | 45%N :: r => (true, r)
    | 43%N :: r => (false, r)
    | r => (false, r)
    end in
  let run := (fix run s := match s with
                           | u :: s' => if isDigit u then u :: run s' else []
                           | [] => []
                           end) body in
  match digitsValue 10 run with
  | Some z => num_of_Z (if neg then - z else z)
  | None => NaN
  end.

(** Longest prefix of code units satisfying [p], and the rest. *)
Fixpoint span (p : N → bool) (s : jsstring) : jsstring * jsstring :=
  match s with
  | u :: s' =>
      if p u then let '(a, b) := span p s' in (u :: a, b) else ([], s)
  | [] => ([], [])
  end.

(** An optional sign: whether it is a minus, and the rest. *)
Definition signed (s : jsstring) : bool * jsstring :=
  match s with
  | 45%N :: r => (true, r)
  | 43%N :: r => (false, r)
  | _ => (false, s)
  end.

(** StrUnsignedDecimalLiteral without Infinity: digits, an optional
    fraction, an optional exponent, to the end of the string; the exact
    value denoted. *)
Definition unsignedDecimal (s : jsstring) : option Q :=
  let '(ip, r1) := span isDigit s in
  let '(fp, r2) := match r1 with
                   | 46%N :: r => span isDigit r
                   | _ => ([], r1)
                   end in
  match digitsValue 10 (ip ++ fp) with
  | None => None
  | Some m =>
      let exponent :=
        match r2 with
        | [] => Some 0%Z
        | u :: r =>
            if bool_decide (u = 101%N ∨ u = 69%N) then
              let '(eneg, ds) := signed r in
              match digitsValue 10 ds with
              | Some e => Some (if eneg then - e else e)%Z
              | None => None
              end
            else None
        end in
      match exponent with
      | None => None
      | Some x =>
          let e10 := (x - Z.of_nat (length fp))%Z in
          Some (if (0 <=? e10)%Z then inject_Z (m * 10 ^ e10)
                else Qmake m (Z.to_pos (10 ^ (- e10))))
      end
  end.

(** StringToNumber: the Number a string converts to. *)
Definition StringToNumber (s : jsstring) : number :=
  match trim s with
  | [] => Finite 0
  | 48%N :: x :: r =>
      if bool_decide (x = 120%N ∨ x = 88%N) then
        from_option num_of_Z NaN (digitsValue 16 r)
      else if bool_decide (x = 111%N ∨ x = 79%N) then
        from_option num_of_Z NaN (digitsValue 8 r)
      else if bool_decide (x = 98%N ∨ x = 66%N) then
        from_option num_of_Z NaN (digitsValue 2 r)
      else from_option binary64 NaN (unsignedDecimal (48%N :: x :: r))
  | t =>
      let '(neg, body) := signed t in
      if bool_decide (body = js "Infinity") then Infinity neg
      else from_option (λ q, binary64 (if neg then - q else q)) NaN (unsignedDecimal body)
  end.

(** ** Values of the parsed query string

    The query parser delivers each parameter as a string, an array (a
    parameter given several times or with brackets) or a nested object. *)

Inductive qsvalue :=
  | QsString (s : jsstring)
  | QsArray (items : list qsvalue)
  | QsObject.

(** [String(v)]: an array joins the strings of its items with commas. *)
Fixpoint String_of (v : qsvalue) : jsstring :=
  match v with
  | QsString s => s
  | QsObject => js "[object Object]"
  | QsArray items =>
      (fix join (l : list qsvalue) : jsstring :=
         match l with
         | [] => []
         | x :: l' =>
             match l' with
             | [] => String_of x
             | _ => String_of x ++ js "," ++ join l'
             end
         end) items
  end.

(** [Number(v)]: arrays and objects convert through their string. *)
Definition Number_of (v : qsvalue) : number := StringToNumber (String_of v).

(** ** Regular expressions of the parser

    A matcher is given the code unit before the position it is tried at
    ([None] at the start of the text) and the text from that position on;
    it answers with the text of capture group 1 (empty when the expression
    has no group) when the expression matches there. *)

Definition matcher := option N → jsstring → option jsstring.

(** The classes [\w] and [[a-z0-9]], and the class of the two quotation
    marks (code units 39 and 34). *)
Definition isWordChar (u : N) : bool :=
  (isDigit u || ((97 <=? u) && (u <=? 122)) || ((65 <=? u) && (u <=? 90)) || (u =? 95))%N.
Definition isLowerAlnum (u : N) : bool :=
  (isDigit u || ((97 <=? u) && (u <=? 122)))%N.
Definition isQuote (u : N) : bool := ((u =? 39) || (u =? 34))%N.

(** End of the expression. *)
Definition accept : matcher := λ _ _, Some [].

(** A literal, then [k]. *)
Fixpoint lit (l : jsstring) (k : matcher) : matcher :=
  λ prev s,
    match l with
    | [] => k prev s
    | c :: l' =>
        match s with
        | u :: s' => if (u =? c)%N then lit l' k (Some u) s' else None
        | [] => None
        end
    end.

(** [\b], then [k]. *)
Definition boundary (k : matcher) : matcher :=
  λ prev s,
    if xorb (from_option isWordChar false prev) (from_option isWordChar false (head s))
    then k prev s else None.

(** One code unit of a class, then [k]. *)
Definition cls (p : N → bool) (k : matcher) : matcher :=
  λ prev s,
    match s with
    | u :: s' => if p u then k (Some u) s' else None
    | [] => None
    end.

(** A group holding one code unit of a class, then [k]. *)
Definition group1 (p : N → bool) (k : matcher) : matcher :=
  λ prev s,
    match s with
    | u :: s' => if p u then (λ _, [u]) <$> k (Some u) s' else None
    | [] => None
    end.

(** [(\d+)] closing an expression: the longest run of digits. *)
Definition digits1 : matcher :=
  λ prev s,
    match fst (span isDigit s) with
    | [] => None
    | ds => Some ds
    end.

(** [r1|r2]. *)
Definition alt (m1 m2 : matcher) : matcher :=
  λ prev s,
    match m1 prev s with
    | Some c => Some c
    | None => m2 prev s
    end.

(** The leftmost match from a position on. *)
Fixpoint search (m : matcher) (prev : option N) (s : jsstring) : option jsstring :=
  match m prev s with
  | Some c => Some c
  | None =>
      match s with
      | u :: s' => search m (Some u) s'
      | [] => None
      end
  end.

(** [text.match(re)]: group 1 of the leftmost match; [re.test(text)]. *)
Definition exec (m : matcher) (text : jsstring) : option jsstring := search m None text.
Definition test (m : matcher) (text : jsstring) : bool := bool_decide (is_Some (exec m text)).

Definition re_palindrome : matcher :=
  alt (boundary (lit (js "palindromic") (boundary accept)))
      (boundary (lit (js "palindrome") (boundary accept))).
Definition re_single_word : matcher :=
  alt (boundary (lit (js "single word") (boundary accept)))
      (boundary (lit (js "one word") (boundary accept))).
Definition re_longer : matcher := lit (js "longer than ") digits1.
Definition re_at_least : matcher := lit (js "at least ") digits1.
Definition re_shorter : matcher := lit (js "shorter than ") digits1.
Definition re_letter : matcher := lit (js "containing the letter ") (group1 isWordChar accept).
Definition re_containing : matcher := lit (js "containing ") (group1 isLowerAlnum accept).
Definition re_quoted : matcher := cls isQuote (group1 isLowerAlnum (cls isQuote accept)).
Definition re_first_vowel : matcher := lit (js "first vowel") accept.

(** ** The filters object *)

Module Filters.
Record t := mk {
  is_palindrome : option bool;
  min_length : option number;
  max_length : option number;
  word_count : option number;
  contains_character : option jsstring }.

Definition empty : t := mk None None None None None.

Definition set_is_palindrome (v : bool) (f : t) : t :=
  mk (Some v) (min_length f) (max_length f) (word_count f) (contains_character f).
Definition set_min_length (v : number) (f : t) : t :=
  mk (is_palindrome f) (Some v) (max_length f) (word_count f) (contains_character f).
Definition set_max_length (v : number) (f : t) : t :=
  mk (is_palindrome f) (min_length f) (Some v) (word_count f) (contains_character f).
Definition set_word_count (v : number) (f : t) : t :=
  mk (is_palindrome f) (min_length f) (max_length f) (Some v) (contains_character f).
Definition set_contains_character (v : jsstring) (f : t) : t :=
  mk (is_palindrome f) (min_length f) (max_length f) (word_count f) (Some v).

Definition present {A} (o : option A) : nat :=
  match o with Some _ => 1 | None => 0 end.

(** [Object.keys(filters).length]. *)
Definition keys (f : t) : nat :=
  present (is_palindrome f) + present (min_length f) + present (max_length f)
  + present (word_count f) + present (contains_character f).

(** Both bounds are defined and [min_length > max_length]. *)
Definition conflicting (f : t) : bool :=
  match min_length f, max_length f with
  | Some lo, Some hi => num_gtb lo hi
  | _, _ => false
  end.
End Filters.

Abbreviation FilterSet := Filters.t.

(** ** utils.js: parseNaturalLanguage, on the lowercased and trimmed text *)

(** What the parser throws. *)
Record thrown := Throw { status : nat; message : string }.

(** Truthiness of a variable holding [null] or a string. *)
Definition truthy (contains : option jsstring) : bool :=
  match contains with
  | Some (_ :: _) => true
  | _ => false
  end.

Definition rule_palindrome (text : jsstring) (filters : FilterSet) : FilterSet :=
  if test re_palindrome text then Filters.set_is_palindrome true filters else filters.

Definition rule_single_word (text : jsstring) (filters : FilterSet) : FilterSet :=
  if test re_single_word text then Filters.set_word_count (num_of_Z 1) filters else filters.

Definition rule_longer (text : jsstring) (filters : FilterSet) : FilterSet :=
  match exec re_longer text with
  | Some ds =>
      let n := parseInt ds in
      if negb (isNaN n) then Filters.set_min_length (num_add n (num_of_Z 1)) filters
      else filters
  | None => filters
  end.

Definition rule_at_least (text : jsstring) (filters : FilterSet) : FilterSet :=
  match exec re_at_least text with
  | Some ds =>
      let n := parseInt ds in
      if negb (isNaN n)
      then Filters.set_min_length
             (Math_max (default (num_of_Z 0) (Filters.min_length filters)) n) filters
      else filters
  | None => filters
  end.

Definition rule_shorter (text : jsstring) (filters : FilterSet) : FilterSet :=
  match exec re_shorter text with
  | Some ds =>
      let n := parseInt ds in
      if negb (isNaN n) then Filters.set_max_length (num_sub n (num_of_Z 1)) filters
      else filters
  | None => filters
  end.

(** The variable [contains] after the four attempts. *)
Definition find_contains (text : jsstring) : option jsstring :=
  let contains := None in
  let contains := match exec re_letter text with
                  | Some c => Some c
                  | None => contains
                  end in
  let contains := if negb (truthy contains)
                  then match exec re_containing text with
                       | Some c => Some c
                       | None => contains
                       end
                  else contains in
  let contains := if negb (truthy contains)
                  then match exec re_quoted text with
                       | Some c => Some c
                       | None => contains
                       end
                  else contains in
  let contains := if negb (truthy contains) && test re_first_vowel text
                  then Some (js "a")
                  else contains in
  contains.

Definition rule_contains (text : jsstring) (filters : FilterSet) : FilterSet :=
  match find_contains text with
  | Some c => if truthy (Some c) then Filters.set_contains_character c filters else filters
  | None => filters
  end.

(** The filters object once every rule has been tried. *)
Definition accumulate (text : jsstring) : FilterSet :=
  rule_contains text
    (rule_shorter text
       (rule_at_least text
          (rule_longer text
             (rule_single_word text
                (rule_palindrome text Filters.empty))))).

(** The two closing checks. *)
Definition check_filters (filters : FilterSet) : thrown + FilterSet :=
  if (Filters.keys filters =? 0)%nat
  then inl (Throw 400 "Unable to parse natural language query")
  else if Filters.conflicting filters
  then inl (Throw 422 "Parsed filters are conflicting (min_length > max_length)")
  else inr filters.

(** [!query || typeof query !== 'string'] on a parameter of the query
    string ([None] is [undefined]). *)
Definition not_a_nonempty_string (query : option qsvalue) : bool :=
  match query with
  | Some (QsString (_ :: _)) => false
  | _ => true
  end.

(** The error kinds of the parser, by the status thrown. *)
Definition InvalidQuery (e : thrown) : Prop := status e = 400.
Definition ConflictingFilters (e : thrown) : Prop := status e = 422.

(** ** db.js *)

Module Properties.
Record t := mk {
  length : nat;
  is_palindrome : bool;
  unique_characters : nat;
  word_count : nat;
  sha256_hash : jsstring;
  character_frequency_map : gmap jsstring nat }.
End Properties.

Module StringRecord.
(** [created_at] is the instant of creation in milliseconds; the program
    keeps its ISO rendering and reads it back with [new Date]. *)
Record t := mk {
  id : jsstring;
  value : jsstring;
  properties : Properties.t;
  created_at : Z }.
End StringRecord.

(** The object [DB], from id to record. *)
Abbreviation store := (gmap jsstring StringRecord.t).

(** Exceptions of the store and of the built-ins. *)
Inductive exn :=
  | Error (msg : string)
  | WriteFailed
  | URIError.

(** [saveDb(DB)]: [disk] tells whether the write to the file succeeds. *)
Definition saveDb (disk : bool) : exn + unit :=
  if disk then inr tt else inl WriteFailed.

Definition getById (id : jsstring) (DB : store) : option StringRecord.t := DB !! id.

(** The store after the call, and what the call returned or threw. *)
Definition insertRecord (disk : bool) (record : StringRecord.t) (DB : store)
  : store * (exn + unit) :=
  match StringRecord.id record with
  | [] => (DB, inl (Error "Invalid record"))
  | _ =>
      match DB !! StringRecord.id record with
      | Some _ => (DB, inl (Error "EXISTS"))
      | None => (<[StringRecord.id record := record]> DB, saveDb disk)
      end
  end.

Definition deleteById (disk : bool) (id : jsstring) (DB : store) : store * (exn + bool) :=
  match DB !! id with
  | None => (DB, inr false)
  | Some _ =>
      (delete id DB,
       match saveDb disk with
       | inl e => inl e
       | inr _ => inr true
       end)
  end.

(** The callback of [records.filter] in [listRecords].  The conversions
    [Boolean], [Number] and [String] it applies to the fields of [filters]
    are the identity on the values the callers store there. *)
Definition matches (filters : FilterSet) (r : StringRecord.t) : bool :=
  let props := StringRecord.properties r in
  if match Filters.is_palindrome filters with
     | Some b => negb (Bool.eqb (Properties.is_palindrome props) b)
     | None => false
     end then false
  else if match Filters.min_length filters with
          | Some n => num_ltb (num_of_nat (Properties.length props)) n
          | None => false
          end then false
  else if match Filters.max_length filters with
          | Some n => num_gtb (num_of_nat (Properties.length props)) n
          | None => false
          end then false
  else if match Filters.word_count filters with
          | Some n => negb (num_eqb (num_of_nat (Properties.word_count props)) n)
          | None => false
          end then false
  else if match Filters.contains_character filters with
          | Some ch =>
              negb (bool_decide (is_Some (Properties.character_frequency_map props !! ch)))
          | None => false
          end then false
  else true.

(** Newest first. *)
Definition newer_or_same (a b : StringRecord.t) : Prop :=
  (StringRecord.created_at b <= StringRecord.created_at a)%Z.

#[local] Instance newer_or_same_dec a b : Decision (newer_or_same a b).
Proof. unfold newer_or_same. apply _. Defined.

(** [Object.values(DB)] is taken in the order of the map, the sort is
    stable. *)
Definition listRecords (filters : FilterSet) (DB : store) : list StringRecord.t :=
  merge_sort newer_or_same (filter (λ r, matches filters r = true) (snd <$> map_to_list DB)).

(** ** routes.js: requests and responses *)

(** The body of a response: [{error}], a record, the listing of
    [GET /strings], the listing of the natural-language route, or nothing. *)
Inductive payload :=
  | ErrorJson (error : string)
  | RecordJson (record : StringRecord.t)
  | ListJson (data : list StringRecord.t) (count : nat) (filters_applied : FilterSet)
  | InterpretedJson (data : list StringRecord.t) (count : nat)
      (original : option qsvalue) (parsed_filters : FilterSet)
  | NoContent.

Inductive response := Respond (code : nat) (body : payload).

(** [req.body] as far as [POST /strings] looks at it: no [value] field, a
    [value] that is not a string, or a string. *)
Inductive post_body :=
  | NoValue
  | ValueNotString
  | ValueString (value : jsstring).

(** [req.query] of [GET /strings]. *)
Module Query.
Record t := mk {
  is_palindrome : option qsvalue;
  min_length : option qsvalue;
  max_length : option qsvalue;
  word_count : option qsvalue;
  contains_character : option qsvalue }.
End Query.

(** Sequencing of steps that may answer early. *)
#[local] Instance early_answer_bind {E} : MBind (sum E) :=
  λ A B k m,
    match m with
    | inl e => inl e
    | inr a => k a
    end.

(** The error kinds of the routes, by the status of the response. *)
Definition AlreadyExists (r : response) : Prop := ∃ b, r = Respond 409 b.
Definition NotFound (r : response) : Prop := ∃ b, r = Respond 404 b.
Definition InvalidFilter (r : response) : Prop := ∃ b, r = Respond 400 b.

(** A numeric parameter of [GET /strings]: [Number(x)], refused when NaN. *)
Definition numeric_param (x : qsvalue) (refusal : string) : response + number :=
  let n := Number_of x in
  if isNaN n then inl (Respond 400 (ErrorJson refusal)) else inr n.

(** ** Notions used to state the properties *)

(** The text matches the expression [re], which ends in [(\d+)], and the
    digits captured denote [N]. *)
Definition matched_number (re : matcher) (text : jsstring) : option Z :=
  ds ← exec re text; digitsValue 10 ds.

(** The code unit [x] stands in [text] between two quotation marks of the
    same kind. *)
Definition quoted_in (x : N) (text : jsstring) : Prop :=
  ∃ q pre post, isQuote q = true ∧ text = pre ++ [q; x; q] ++ post.

(** The code unit a position is preceded by, after the units [pre]. *)
Definition before (prev : option N) (pre : jsstring) : option N :=
  match last pre with
  | Some u => Some u
  | None => prev
  end.

(** No numeric field of the filters is NaN. *)
Definition no_NaN (filters : FilterSet) : Prop :=
  Filters.min_length filters ≠ Some NaN ∧
  Filters.max_length filters ≠ Some NaN ∧
  Filters.word_count filters ≠ Some NaN.

(** A Number that is an integer. *)
Definition is_integer (x : number) : Prop :=
  ∃ z : Z, num_eq x (Finite (inject_Z z)).

(** The number of words of [s]: the code units that are not white space
    and stand first or after white space.  [after_space] tells whether the
    position before [s] counts as white space. *)
Fixpoint word_starts (after_space : bool) (s : jsstring) : nat :=
  match s with
  | [] => 0
  | u :: s' =>
      if isWhiteSpace u then word_starts true s'
      else (if after_space then 1 else 0) + word_starts false s'
  end.

(** [w] stands in [text] as a whole word: no word character ([\w]) comes
    right before it or right after it. *)
Definition whole_word_in (w text : jsstring) : Prop :=
  ∃ pre post, text = pre ++ w ++ post ∧
              from_option isWordChar false (last pre) = false ∧
              from_option isWordChar false (head post) = false.

(** A hexadecimal digit, as [decodeURIComponent] reads two of them after
    a [%]. *)
Definition isHexDigit (u : N) : bool :=
  isDigit u || ((65 <=? u) && (u <=? 70))%N || ((97 <=? u) && (u <=? 102))%N.

(** What follows a [%] does not begin with two hexadecimal digits. *)
Definition incomplete_escape (after : jsstring) : bool :=
  match after with
  | a :: b :: _ => negb (isHexDigit a && isHexDigit b)
  | _ => true
  end.

(** ** The built-ins on ASCII, and instances of them *)

(** Lowercasing of an ASCII code unit. *)
Definition asciiLower (u : N) : N :=
  if ((65 <=? u) && (u <=? 90))%N then (u + 32)%N else u.

Definition isAscii (u : N) : bool := (u <? 128)%N.

(** Functions that meet what the section [Host] asks of the built-ins:
    lowercasing of the ASCII letters, an injective stand-in for the digest,
    and the decoding of a component that holds no escape sequence. *)
Definition asciiLowerCase (s : jsstring) : jsstring := asciiLower <$> s.
Definition taggedDigest (s : jsstring) : jsstring := js "sha256:" ++ s.
Definition decodeUnescaped (s : jsstring) : option jsstring :=
  if bool_decide (37%N ∈ s) then None else Some s.

Section Host.

Set Default Proof Using "Type".

(** [String.prototype.toLowerCase]. *)
Variable toLowerCase : jsstring → jsstring.

(** The hexadecimal SHA-256 digest of the UTF-8 encoding of a string. *)
Variable sha256Hex : jsstring → jsstring.

(** [decodeURIComponent]; [None] when it throws [URIError]. *)
Variable decodeURIComponent : jsstring → option jsstring.

(** What is assumed of [toLowerCase]: on a string of ASCII code units it
    lowers the letters A to Z and leaves the rest. *)
Hypothesis toLowerCase_ascii :
  ∀ s, forallb isAscii s = true → toLowerCase s = asciiLower <$> s.

(** What is assumed of [decodeURIComponent]: it throws [URIError] on a
    string in which some [%] (code unit 37) is not followed by two
    hexadecimal digits. *)
Hypothesis decodeURIComponent_incomplete_escape :
  ∀ pre after, incomplete_escape after = true →
               decodeURIComponent (pre ++ 37%N :: after) = None.

(** Drops from the context what the goal does not speak of. *)
Ltac forget_host :=
  try clear decodeURIComponent_incomplete_escape;
  try clear toLowerCase_ascii; try clear decodeURIComponent;
  try clear sha256Hex; try clear toLowerCase.

(** *** utils.js, continued *)

Definition isPalindrome (value : jsstring) : bool :=
  let lower := toLowerCase value in
  let arr := codePoints lower in
  isPalindrome_loop arr 0 (Z.of_nat (length arr) - 1).

Definition analyzeString (value : jsstring) : Properties.t :=
  let id := sha256Hex value in
  let length := charLength value in
  let freqMap := charFrequencyMap value in
  let unique_characters := uniqueCharacters value in
  let words := wordCount value in
  let palindrome := isPalindrome value in
  Properties.mk length palindrome unique_characters words id freqMap.

Definition parseNaturalLanguage (query : option qsvalue) : thrown + FilterSet :=
  match query with
  | Some (QsString (u :: q)) =>
      let text := trim (toLowerCase (u :: q)) in
      check_filters (accumulate text)
  | _ => inl (Throw 400 "query must be a non-empty string")
  end.

(** *** POST /strings

    [now] is the clock read by [new Date()].  The quotation marks around
    [value] in the two messages are written as apostrophes. *)
Definition post_strings (now : Z) (disk : bool) (body : post_body) (DB : store)
  : store * response :=
  match body with
  | NoValue => (DB, Respond 400 (ErrorJson "'value' field is required"))
  | ValueNotString => (DB, Respond 422 (ErrorJson "'value' must be a string"))
  | ValueString value =>
      let props := analyzeString value in
      let id := Properties.sha256_hash props in
      match getById id DB with
      | Some _ => (DB, Respond 409 (ErrorJson "String already exists in the system"))
      | None =>
          let record := StringRecord.mk id value props now in
          match insertRecord disk record DB with
          | (DB', inr _) => (DB', Respond 201 (RecordJson record))
          | (DB', inl (Error "EXISTS")) =>
              (DB', Respond 409 (ErrorJson "String already exists"))
          | (DB', inl _) => (DB', Respond 500 (ErrorJson "Server error"))
          end
      end
  end.

(** *** GET /strings: validation of the query parameters *)

Definition validate (q : Query.t) : response + FilterSet :=
  let filters := Filters.empty in
  filters ←
    match Query.is_palindrome q with
    | Some x =>
        let v := toLowerCase (String_of x) in
        if bool_decide (v ≠ js "true") && bool_decide (v ≠ js "false")
        then inl (Respond 400 (ErrorJson "is_palindrome must be true or false"))
        else inr (Filters.set_is_palindrome (bool_decide (v = js "true")) filters)
    | None => inr filters
    end;
  filters ←
    match Query.min_length q with
    | Some x =>
        n ← numeric_param x "min_length must be an integer";
        inr (Filters.set_min_length n filters)
    | None => inr filters
    end;
  filters ←
    match Query.max_length q with
    | Some x =>
        n ← numeric_param x "max_length must be an integer";
        inr (Filters.set_max_length n filters)
    | None => inr filters
    end;
  filters ←
    match Query.word_count q with
    | Some x =>
        n ← numeric_param x "word_count must be an integer";
        inr (Filters.set_word_count n filters)
    | None => inr filters
    end;
  filters ←
    match Query.contains_character q with
    | Some x =>
        let ch := String_of x in
        if bool_decide (length ch ≠ 1)
        then inl (Respond 400 (ErrorJson "contains_character must be a single character"))
        else inr (Filters.set_contains_character ch filters)
    | None => inr filters
    end;
  if Filters.conflicting filters
  then inl (Respond 400 (ErrorJson "min_length cannot be greater than max_length"))
  else inr filters.

Definition get_strings (q : Query.t) (DB : store) : response :=
  match validate q with
  | inl refusal => refusal
  | inr filters =>
      let data := listRecords filters DB in
      Respond 200 (ListJson data (length data) filters)
  end.

(** *** GET /strings/filter-by-natural-language *)
Definition get_strings_natural (q : option qsvalue) (DB : store) : response :=
  match parseNaturalLanguage q with
  | inr parsed =>
      let data := listRecords parsed DB in
      Respond 200 (InterpretedJson data (length data) q parsed)
  | inl err => Respond (status err) (ErrorJson (message err))
  end.

(** *** GET /strings/:string_value *)
Definition get_string (raw : jsstring) (DB : store) : response :=
  match decodeURIComponent raw with
  | None => Respond 400 (ErrorJson "Invalid URL-encoded string")
  | Some decoded =>
      let id := sha256Hex decoded in
      match getById id DB with
      | None => Respond 404 (ErrorJson "String does not exist in the system")
      | Some rec => Respond 200 (RecordJson rec)
      end
  end.

(** *** DELETE /strings/:string_value *)
Definition delete_string (disk : bool) (raw : jsstring) (DB : store) : store * response :=
  match decodeURIComponent raw with
  | None => (DB, Respond 400 (ErrorJson "Invalid URL-encoded string"))
  | Some decoded =>
      let id := sha256Hex decoded in
      match deleteById disk id DB with
      | (DB', inr true) => (DB', Respond 204 NoContent)
      | (DB', inr false) =>
          (DB', Respond 404 (ErrorJson "String does not exist in the system"))
      | (DB', inl _) => (DB', Respond 400 (ErrorJson "Invalid URL-encoded string"))
      end
  end.

(** The stores the service can be in: it starts empty and changes through
    the two routes that write. *)
Inductive reachable : store → Prop :=
  | reachable_empty : reachable ∅
  | reachable_post now disk body DB :
      reachable DB → reachable (post_strings now disk body DB).1
  | reachable_delete disk raw DB :
      reachable DB → reachable (delete_string disk raw DB).1.

(** ** Properties *)

(** *** Distinct code points *)

Lemma size_list_to_set_le (l : list jsstring) :
  size (list_to_set l : gset jsstring) ≤ length l.
Proof. forget_host.
  induction l as [|x l IH].
  - rewrite list_to_set_nil, size_empty. done.
  - rewrite list_to_set_cons. simpl length.
    destruct (decide (x ∈ (list_to_set l : gset jsstring))) as [Hin|Hnin].
    + replace ({[x]} ∪ list_to_set l) with (list_to_set l : gset jsstring) by set_solver.
      lia.
    + rewrite size_union by set_solver. rewrite size_singleton. lia.
Qed.

Lemma size_list_to_set_NoDup (l : list jsstring) :
  size (list_to_set l : gset jsstring) = length l ↔ NoDup l.
Proof. forget_host.
  split; [|apply size_list_to_set].
  induction l as [|x l IH]; intros Hsz; [constructor|].
  rewrite list_to_set_cons in Hsz. simpl length in Hsz.
  pose proof (size_list_to_set_le l) as Hle.
  destruct (decide (x ∈ (list_to_set l : gset jsstring))) as [Hin|Hnin].
  - replace ({[x]} ∪ list_to_set l) with (list_to_set l : gset jsstring) in Hsz by set_solver.
    lia.
  - rewrite size_union in Hsz by set_solver. rewrite size_singleton in Hsz.
    constructor; [set_solver|]. apply IH. lia.
Qed.

Lemma count_pos_elem_of (c : jsstring) (l : list jsstring) :
  0 < length (filter (λ x, x = c) l) ↔ c ∈ l.
Proof. forget_host.
  induction l as [|x l IH]; simpl.
  - split; [lia|]. by intros ?%elem_of_nil.
  - rewrite filter_cons. destruct (decide (x = c)) as [->|Hne]; simpl.
    + split; [intros _; left|lia].
    + rewrite IH. set_solver.
Qed.

Lemma NoDup_count_one (l : list jsstring) :
  NoDup l ↔ ∀ c, c ∈ l → length (filter (λ x, x = c) l) = 1.
Proof. forget_host.
  induction l as [|x l IH].
  - split; [|constructor]. by intros _ c ?%elem_of_nil.
  - rewrite NoDup_cons, IH. split.
    + intros [Hx Hl] c Hc. rewrite filter_cons.
      destruct (decide (x = c)) as [->|Hne]; simpl.
      * destruct (length (filter (λ x, x = c) l)) eqn:E; [done|].
        exfalso. apply Hx, count_pos_elem_of. lia.
      * apply Hl. set_solver.
    + intros H. split.
      * intros Hx. specialize (H x (list_elem_of_here _ _)).
        rewrite filter_cons, decide_True in H by done. simpl in H.
        apply count_pos_elem_of in Hx. lia.
      * intros c Hc. specialize (H c (list_elem_of_further _ _ _ Hc)).
        rewrite filter_cons in H. destruct (decide (x = c)); simpl in H; [|done].
        apply count_pos_elem_of in Hc. lia.
Qed.

(** C9. The code-point length of a string equals its number of distinct
    code points exactly when every code point of the string occurs in it
    once. *)
Theorem charLength_uniqueCharacters_iff_distinct (s : jsstring) :
  charLength s = uniqueCharacters s ↔
  ∀ c, c ∈ codePoints s → occurrences c s = 1.
Proof.
  unfold charLength, uniqueCharacters, occurrences.
  rewrite <- NoDup_count_one, <- size_list_to_set_NoDup. split; congruence.
Qed.

(** *** The frequency map *)

(** One step of the loop of [charFrequencyMap]. *)
Lemma charFrequencyMap_fold_lookup (l : list jsstring) (m : gmap jsstring nat) (c : jsstring) :
  foldl (λ map ch, <[ch := default 0 (map !! ch) + 1]> map) m l !! c =
  if decide (c ∈ l)
  then Some (default 0 (m !! c) + length (filter (λ x, x = c) l))
  else m !! c.
Proof. forget_host.
  revert m. induction l as [|x l IH]; intros m.
  - done.
  - simpl foldl. rewrite IH, filter_cons.
    assert (Hz : c ∉ l → length (filter (λ x, x = c) l) = 0).
    { intros Hnin. destruct (length (filter (λ x, x = c) l)) eqn:E; [done|].
      exfalso. apply Hnin, count_pos_elem_of. lia. }
    destruct (decide (x = c)) as [->|Hne].
    + rewrite lookup_insert_eq. simpl.
      rewrite (decide_True (P := c ∈ c :: l)) by left.
      case_decide as Hin; f_equal; [lia|]. rewrite Hz by done. lia.
    + rewrite lookup_insert_ne by done.
      destruct (decide (c ∈ l)) as [Hin|Hnin].
      * rewrite decide_True by (by right). done.
      * rewrite decide_False; [done|]. set_solver.
Qed.

Lemma charFrequencyMap_lookup (s c : jsstring) :
  charFrequencyMap s !! c =
  if decide (c ∈ codePoints s) then Some (occurrences c s) else None.
Proof.
  unfold charFrequencyMap, occurrences.
  rewrite charFrequencyMap_fold_lookup, lookup_empty. done.
Qed.

Lemma totalCount_insert (m : gmap jsstring nat) (c : jsstring) (n : nat) :
  totalCount (<[c := n]> m) + default 0 (m !! c) = totalCount m + n.
Proof.
  unfold totalCount.
  assert (Hcomm : ∀ (j1 j2 : jsstring) (z1 z2 y : nat),
             z1 + (z2 + y) = z2 + (z1 + y)) by (intros; lia).
  destruct (m !! c) as [v|] eqn:E; simpl.
  - rewrite <- (insert_delete_eq m c n).
    rewrite <- (insert_delete_id m c v E) at 2.
    rewrite !map_fold_insert_L; try (rewrite ?lookup_delete_eq; done); intros; lia.
  - rewrite map_fold_insert_L; [lia| intros; lia | done].
Qed.

Lemma totalCount_fold (l : list jsstring) (m : gmap jsstring nat) :
  totalCount (foldl (λ map ch, <[ch := default 0 (map !! ch) + 1]> map) m l) =
  totalCount m + length l.
Proof.
  revert m. induction l as [|x l IH]; intros m; simpl; [lia|].
  rewrite IH. pose proof (totalCount_insert m x (default 0 (m !! x) + 1)). lia.
Qed.

Lemma charFrequencyMap_positive (s c : jsstring) (n : nat) :
  charFrequencyMap s !! c = Some n → n ≠ 0.
Proof. forget_host.
  rewrite charFrequencyMap_lookup.
  destruct (decide (c ∈ codePoints s)) as [Hc|]; [|done].
  intros [= <-]. apply count_pos_elem_of in Hc. unfold occurrences. lia.
Qed.

(** C10. The keys of [charFrequencyMap s] are the code points of [s],
    every count is at least 1 and the counts add up to the code-point
    length; so in the properties of an analysed string a character is a
    key of the frequency map exactly when it occurs in the string, and
    then its count is its number of occurrences, which is not zero. *)
Theorem charFrequencyMap_invariant (s : jsstring) :
  (∀ c, c ∈ dom (charFrequencyMap s) ↔ c ∈ codePoints s) ∧
  (∀ c n, charFrequencyMap s !! c = Some n → 1 ≤ n) ∧
  totalCount (charFrequencyMap s) = charLength s ∧
  (∀ c, let freq := Properties.character_frequency_map (analyzeString s) in
        (is_Some (freq !! c) ↔ c ∈ codePoints s) ∧
        (is_Some (freq !! c) ↔ freq !! c = Some (occurrences c s) ∧ occurrences c s ≠ 0)).
Proof.
  assert (Hpos : ∀ c, c ∈ codePoints s → occurrences c s ≠ 0).
  { intros c Hc. apply count_pos_elem_of in Hc. unfold occurrences. lia. }
  assert (Hkey : ∀ c, is_Some (charFrequencyMap s !! c) ↔ c ∈ codePoints s).
  { intros c. rewrite charFrequencyMap_lookup.
    destruct (decide (c ∈ codePoints s)) as [Hc|Hc]; split; eauto.
    - intros [? ?]; done.
    - intros; contradiction. }
  split; [|split; [|split]].
  - intros c. by rewrite elem_of_dom.
  - intros c n Hn. rewrite charFrequencyMap_lookup in Hn.
    destruct (decide (c ∈ codePoints s)) as [Hc|]; [|done].
    injection Hn as <-. specialize (Hpos c Hc). lia.
  - unfold charFrequencyMap, charLength. rewrite totalCount_fold.
    unfold totalCount. rewrite map_fold_empty. lia.
  - intros c. simpl. split; [apply Hkey|]. split.
    + intros Hc%Hkey. rewrite charFrequencyMap_lookup, decide_True by done. auto.
    + intros [-> _]. eauto.
Qed.

(** *** isPalindrome *)

Lemma isPalindrome_loop_true (arr : list jsstring) (i j : Z) :
  isPalindrome_loop arr i j = true ↔
  ∀ k : Z, (0 ≤ k)%Z → (i + k < j - k)%Z →
           arr !! Z.to_nat (i + k) = arr !! Z.to_nat (j - k).
Proof.
  remember (Z.to_nat (j - i)) as n eqn:Hn. revert i j Hn.
  induction n as [n IH] using lt_wf_ind. intros i j Hn.
  rewrite isPalindrome_loop_equation_1.
  destruct (decide (i < j)%Z) as [Hlt|Hge]; simpl.
  - destruct (decide (arr !! Z.to_nat i ≠ arr !! Z.to_nat j)) as [Hne|Heq].
    + split; [done|]. intros H. exfalso. apply Hne.
      specialize (H 0%Z). rewrite Z.add_0_r, Z.sub_0_r in H. apply H; lia.
    + assert (Heq' : arr !! Z.to_nat i = arr !! Z.to_nat j).
      { destruct (decide (arr !! Z.to_nat i = arr !! Z.to_nat j)); [done|]. by destruct Heq. }
      rewrite (IH (Z.to_nat (j - 1 - (i + 1)))); [|lia|done]. split.
      * intros H k Hk Hkl. destruct (decide (k = 0%Z)) as [->|Hk0].
        -- by rewrite Z.add_0_r, Z.sub_0_r.
        -- specialize (H (k - 1)%Z).
           replace (i + 1 + (k - 1))%Z with (i + k)%Z in H by lia.
           replace (j - 1 - (k - 1))%Z with (j - k)%Z in H by lia.
           apply H; lia.
      * intros H k Hk Hkl. specialize (H (k + 1)%Z).
        replace (i + (k + 1))%Z with (i + 1 + k)%Z in H by lia.
        replace (j - (k + 1))%Z with (j - 1 - k)%Z in H by lia.
        apply H; lia.
  - split; [|done]. intros _ k Hk Hkl. lia.
Qed.

Lemma isPalindrome_loop_false (arr : list jsstring) (i j : Z) :
  isPalindrome_loop arr i j = false ↔
  ∃ k : Z, (0 ≤ k)%Z ∧ (i + k < j - k)%Z ∧
           arr !! Z.to_nat (i + k) ≠ arr !! Z.to_nat (j - k) ∧
           ∀ k' : Z, (0 ≤ k' < k)%Z →
                     arr !! Z.to_nat (i + k') = arr !! Z.to_nat (j - k').
Proof.
  remember (Z.to_nat (j - i)) as n eqn:Hn. revert i j Hn.
  induction n as [n IH] using lt_wf_ind. intros i j Hn.
  rewrite isPalindrome_loop_equation_1.
  destruct (decide (i < j)%Z) as [Hlt|Hge]; simpl.
  - destruct (decide (arr !! Z.to_nat i ≠ arr !! Z.to_nat j)) as [Hne|Heq].
    + split; [intros _|done]. exists 0%Z.
      rewrite Z.add_0_r, Z.sub_0_r. repeat split; [lia..|done|]. intros; lia.
    + assert (Heq' : arr !! Z.to_nat i = arr !! Z.to_nat j).
      { destruct (decide (arr !! Z.to_nat i = arr !! Z.to_nat j)); [done|]. by destruct Heq. }
      rewrite (IH (Z.to_nat (j - 1 - (i + 1)))); [|lia|done]. split.
      * intros (k & Hk & Hkl & Hne & Hbefore). exists (k + 1)%Z.
        replace (i + (k + 1))%Z with (i + 1 + k)%Z by lia.
        replace (j - (k + 1))%Z with (j - 1 - k)%Z by lia.
        repeat split; [lia..|done|]. intros k' Hk'.
        destruct (decide (k' = 0%Z)) as [->|Hk0].
        -- by rewrite Z.add_0_r, Z.sub_0_r.
        -- specialize (Hbefore (k' - 1)%Z).
           replace (i + 1 + (k' - 1))%Z with (i + k')%Z in Hbefore by lia.
           replace (j - 1 - (k' - 1))%Z with (j - k')%Z in Hbefore by lia.
           apply Hbefore; lia.
      * intros (k & Hk & Hkl & Hne & Hbefore).
        destruct (decide (k = 0%Z)) as [->|Hk0].
        { rewrite Z.add_0_r, Z.sub_0_r in Hne. done. }
        exists (k - 1)%Z.
        replace (i + 1 + (k - 1))%Z with (i + k)%Z by lia.
        replace (j - 1 - (k - 1))%Z with (j - k)%Z by lia.
        repeat split; [lia..|done|]. intros k' Hk'.
        specialize (Hbefore (k' + 1)%Z).
        replace (i + (k' + 1))%Z with (i + 1 + k')%Z in Hbefore by lia.
        replace (j - (k' + 1))%Z with (j - 1 - k')%Z in Hbefore by lia.
        apply Hbefore; lia.
  - split; [done|]. intros (k & Hk & Hkl & _). lia.
Qed.

(** A list reads the same in both directions when its symmetric pairs
    agree. *)
Lemma symmetric_pairs_reverse (arr : list jsstring) :
  arr = reverse arr ↔
  ∀ k, 2 * k + 1 < length arr → arr !! k = arr !! (length arr - 1 - k).
Proof.
  split.
  - intros H k Hk. rewrite H at 1. rewrite reverse_lookup by lia. f_equal. lia.
  - intros H. apply list_eq. intros i.
    destruct (decide (i < length arr)) as [Hi|Hi].
    + rewrite reverse_lookup by done.
      replace (length arr - S i) with (length arr - 1 - i) by lia.
      destruct (decide (2 * i + 1 < length arr)) as [Hs|Hs]; [by apply H|].
      destruct (decide (2 * i + 1 = length arr)) as [He|He].
      * f_equal. lia.
      * specialize (H (length arr - 1 - i)). rewrite H by lia. f_equal. lia.
    + rewrite !lookup_ge_None_2; [done| |lia]. rewrite length_reverse. lia.
Qed.

(** C5. [isPalindrome s] lowercases [s], takes its code points and
    compares the symmetric pairs from both ends inwards: it is false
    exactly when some pair differs (the first such pair being the one
    that ends the loop) and true when no pair differs, that is when the
    sequence is its own reverse; nothing is stripped.  So the empty string
    and "Racecar" are palindromes and "race a car" is not. *)
Theorem isPalindrome_symmetric_pairs :
  (∀ s, let arr := codePoints (toLowerCase s) in
        (isPalindrome s = true ↔
         ∀ k, 2 * k + 1 < length arr → arr !! k = arr !! (length arr - 1 - k)) ∧
        (isPalindrome s = false ↔
         ∃ k, 2 * k + 1 < length arr ∧
              arr !! k ≠ arr !! (length arr - 1 - k) ∧
              ∀ k', k' < k → arr !! k' = arr !! (length arr - 1 - k')) ∧
        (isPalindrome s = true ↔ arr = reverse arr)) ∧
  isPalindrome [] = true ∧
  isPalindrome (js "Racecar") = true ∧
  isPalindrome (js "race a car") = false.
Proof using toLowerCase_ascii.
  assert (Htrue : ∀ s, let arr := codePoints (toLowerCase s) in
            isPalindrome s = true ↔
            ∀ k, 2 * k + 1 < length arr → arr !! k = arr !! (length arr - 1 - k)).
  { intros s arr. unfold isPalindrome. fold arr. rewrite isPalindrome_loop_true. split.
    - intros H k Hk. specialize (H (Z.of_nat k)).
      replace (Z.to_nat (0 + Z.of_nat k)) with k in H by lia.
      replace (Z.to_nat (Z.of_nat (length arr) - 1 - Z.of_nat k))
        with (length arr - 1 - k) in H by lia.
      apply H; lia.
    - intros H k Hk Hkl. specialize (H (Z.to_nat k)).
      replace (Z.to_nat (0 + k)) with (Z.to_nat k) by lia.
      replace (Z.to_nat (Z.of_nat (length arr) - 1 - k))
        with (length arr - 1 - Z.to_nat k) by lia.
      apply H; lia. }
  split; [intros s arr; split; [apply Htrue|split]|].
  - unfold isPalindrome. fold arr. rewrite isPalindrome_loop_false. split.
    + intros (k & Hk & Hkl & Hne & Hbefore). exists (Z.to_nat k).
      replace (Z.to_nat (0 + k)) with (Z.to_nat k) in Hne by lia.
      replace (Z.to_nat (Z.of_nat (length arr) - 1 - k))
        with (length arr - 1 - Z.to_nat k) in Hne by lia.
      repeat split; [lia|done|]. intros k' Hk'. specialize (Hbefore (Z.of_nat k')).
      replace (Z.to_nat (0 + Z.of_nat k')) with k' in Hbefore by lia.
      replace (Z.to_nat (Z.of_nat (length arr) - 1 - Z.of_nat k'))
        with (length arr - 1 - k') in Hbefore by lia.
      apply Hbefore; lia.
    + intros (k & Hk & Hne & Hbefore). exists (Z.of_nat k).
      replace (Z.to_nat (0 + Z.of_nat k)) with k by lia.
      replace (Z.to_nat (Z.of_nat (length arr) - 1 - Z.of_nat k))
        with (length arr - 1 - k) by lia.
      repeat split; [lia..|done|]. intros k' Hk'. specialize (Hbefore (Z.to_nat k')).
      replace (Z.to_nat (0 + k')) with (Z.to_nat k') by lia.
      replace (Z.to_nat (Z.of_nat (length arr) - 1 - k'))
        with (length arr - 1 - Z.to_nat k') by lia.
      apply Hbefore; lia.
  - rewrite (Htrue s). fold arr. symmetry. apply symmetric_pairs_reverse.
  - unfold isPalindrome.
    rewrite !toLowerCase_ascii by reflexivity. by vm_compute.
Qed.

(** *** Numbers: the rounding, and integers of magnitude up to 2^53 *)

(** [binary64] against the specification of the Standard Library: exact
    values, ties, the neighbourhood of 2^53, overflow, subnormal numbers
    and underflow. *)
Example binary64_agrees_with_reference :
  Forall (λ q, binary64 q = binary64_reference q)
    [ 1 # 10; 7 # 2; 1 # 3; - (2 # 3); 5 # 7; 1 # 1024; inject_Z 11;
      inject_Z (2 ^ 53 - 1); inject_Z (2 ^ 53); inject_Z (2 ^ 53 + 1);
      inject_Z (2 ^ 53 + 3); inject_Z (2 ^ 54 + 2); inject_Z (2 ^ 54 + 6);
      inject_Z (- (2 ^ 60 + 77)); inject_Z (10 ^ 23); inject_Z (2 ^ 1023);
      inject_Z (2 ^ 1024 - 2 ^ 970 - 1); inject_Z (2 ^ 1024 - 2 ^ 970);
      inject_Z (10 ^ 400); 49999999999999999999 # 10000000000000000000;
      1 # Z.to_pos (10 ^ 320); 2 # Z.to_pos (10 ^ 324); 5 # Z.to_pos (10 ^ 324);
      3 # Z.to_pos (2 ^ 1074); 3 # Z.to_pos (2 ^ 1075); 1 # Z.to_pos (2 ^ 1075);
      1 # Z.to_pos (2 ^ 1076); 1 # Z.to_pos (10 ^ 330) ]%Q.
Proof. repeat (constructor; [by vm_compute|]). constructor. Qed.

Lemma floor_log2_integer (a : Z) : (0 < a)%Z → floor_log2 a 1 = Z.log2 a.
Proof.
  intros Ha. unfold floor_log2, scale. change (Z.log2 1) with 0%Z.
  rewrite Z.sub_0_r. pose proof (Z.log2_nonneg a) as Hl.
  rewrite (Z.max_l 0 (- Z.log2 a)), (Z.max_r 0 (Z.log2 a)) by lia.
  rewrite Z.pow_0_r, Z.mul_1_r, Z.mul_1_l.
  destruct (Z.log2_spec a Ha) as [Hlo _].
  rewrite (proj2 (Z.ltb_ge a (2 ^ Z.log2 a))) by lia. done.
Qed.

Lemma round_half_even_integer (n : Z) : round_half_even n 1 = n.
Proof. unfold round_half_even. rewrite Z.div_1_r, Z.mod_1_r. done. Qed.

Lemma Qred_inject_Z (z : Z) : Qred (inject_Z z) = inject_Z z.
Proof.
  unfold Qred, inject_Z.
  pose proof (Z.ggcd_gcd z 1) as Hg. pose proof (Z.ggcd_correct_divisors z 1) as Hd.
  destruct (Z.ggcd z 1) as [g [aa bb]]. simpl in *.
  rewrite Z.gcd_1_r in Hg. subst g. destruct Hd as [-> Hb].
  replace bb with 1%Z by lia. f_equal. lia.
Qed.

Lemma dyadic_scaled (z k : Z) : (0 ≤ k)%Z → dyadic (z * 2 ^ k) (- k) = inject_Z z.
Proof.
  intros Hk. unfold dyadic.
  destruct (decide (k = 0%Z)) as [->|Hk0].
  - simpl. by rewrite !Z.mul_1_r.
  - rewrite (proj2 (Z.leb_gt 0 (- k))) by lia. rewrite Z.opp_involutive.
    assert (Hp : (0 < 2 ^ k)%Z) by (apply Z.pow_pos_nonneg; lia).
    transitivity (Qred (inject_Z z)).
    + apply Qred_complete. unfold Qeq. simpl. rewrite Z2Pos.id by done. lia.
    + apply Qred_inject_Z.
Qed.

Lemma binary64_integer (z : Z) :
  (Z.abs z ≤ 2 ^ 53)%Z → binary64 (inject_Z z) = Finite (inject_Z z).
Proof.
  intros Hz.
  destruct (decide (z = 0%Z)) as [->|Hnz]; [done|].
  destruct (decide (Z.abs z = 2 ^ 53)%Z) as [H53|H53].
  { assert (z = 2 ^ 53 ∨ z = - 2 ^ 53)%Z as [-> | ->] by lia; by vm_compute. }
  unfold binary64. simpl Qnum. simpl Qden.
  set (a := Z.abs z). assert (Ha : (0 < a < 2 ^ 53)%Z) by lia.
  rewrite (proj2 (Z.eqb_neq a 0)) by lia.
  rewrite floor_log2_integer by lia.
  assert (Hl : (0 ≤ Z.log2 a < 53)%Z).
  { split; [apply Z.log2_nonneg|]. apply Z.log2_lt_pow2; lia. }
  rewrite (Z.max_l (Z.log2 a - 52) (-1074)) by lia.
  unfold scale.
  rewrite (Z.max_r 0 (- (Z.log2 a - 52))), (Z.max_l 0 (Z.log2 a - 52)) by lia.
  rewrite Z.pow_0_r, round_half_even_integer.
  set (k := (- (Z.log2 a - 52))%Z). replace (Z.log2 a - 52)%Z with (- k)%Z by lia.
  assert (Hk : (0 ≤ k ≤ 52)%Z) by lia.
  assert (Hov : ((0 <=? - k) && (2 ^ 1024 <=? a * 2 ^ k * 2 ^ (- k)))%Z = false).
  { destruct (decide (k = 0%Z)) as [->|Hk0].
    - simpl Z.opp. rewrite Z.pow_0_r, !Z.mul_1_r.
      rewrite (proj2 (Z.leb_gt (2 ^ 1024) a)); [done|].
      assert (2 ^ 53 < 2 ^ 1024)%Z by done. lia.
    - rewrite (proj2 (Z.leb_gt 0 (- k))) by lia. done. }
  rewrite Hov. f_equal.
  destruct (z <? 0)%Z eqn:Hneg.
  - rewrite <- Z.mul_opp_l, dyadic_scaled by lia. f_equal. lia.
  - rewrite dyadic_scaled by lia. f_equal. lia.
Qed.

(** *** Matchers *)

Lemma before_app_cons (prev : option N) (pre : jsstring) (u : N) :
  before prev (pre ++ [u]) = Some u.
Proof. unfold before. by rewrite last_snoc. Qed.

Lemma before_cons (prev : option N) (u : N) (pre : jsstring) :
  before prev (u :: pre) = before (Some u) pre.
Proof.
  unfold before. rewrite last_cons. by destruct (last pre).
Qed.

(** A match found by [search] starts at some position of the text. *)
Lemma search_Some (m : matcher) (prev : option N) (s c : jsstring) :
  search m prev s = Some c →
  ∃ pre post, s = pre ++ post ∧ m (before prev pre) post = Some c.
Proof.
  revert prev. induction s as [|u s IH]; intros prev; simpl.
  - destruct (m prev []) eqn:E; [|done]. intros [= <-]. by exists [], [].
  - destruct (m prev (u :: s)) eqn:E.
    + intros [= <-]. by exists [], (u :: s).
    + intros (pre & post & -> & Hm)%IH. exists (u :: pre), post.
      by rewrite before_cons.
Qed.

(** [search] finds a match whenever there is one at some position. *)
Lemma search_is_Some (m : matcher) (prev : option N) (pre post : jsstring) :
  is_Some (m (before prev pre) post) → is_Some (search m prev (pre ++ post)).
Proof.
  revert prev. induction pre as [|u pre IH]; intros prev Hm.
  - change ([] ++ post) with post. change (before prev []) with prev in Hm.
    destruct post; simpl; destruct Hm as [c ->]; eauto.
  - simpl. destruct (m prev (u :: pre ++ post)); [eauto|].
    apply IH. by rewrite before_cons in Hm.
Qed.

Lemma lit_Some (l : jsstring) (k : matcher) (prev : option N) (s c : jsstring) :
  lit l k prev s = Some c ↔
  ∃ rest, s = l ++ rest ∧ k (before prev l) rest = Some c.
Proof.
  revert prev s. induction l as [|x l IH]; intros prev s; simpl.
  - split; [intros H; by exists s|]. by intros (rest & -> & H).
  - destruct s as [|u s].
    + split; [done|]. by intros (rest & ? & _).
    + destruct (u =? x)%N eqn:E.
      * apply N.eqb_eq in E as ->. rewrite IH. rewrite before_cons.
        split; intros (rest & Hs & H); exists rest; split; congruence.
      * apply N.eqb_neq in E. split; [done|]. intros (rest & [= ? _] & _). done.
Qed.

Lemma group1_Some (p : N → bool) (k : matcher) (prev : option N) (s c : jsstring) :
  group1 p k prev s = Some c ↔
  ∃ u rest, s = u :: rest ∧ p u = true ∧ is_Some (k (Some u) rest) ∧ c = [u].
Proof.
  unfold group1. destruct s as [|u s].
  - split; [done|]. by intros (? & ? & ? & _).
  - destruct (p u) eqn:E.
    + destruct (k (Some u) s) eqn:Ek; simpl.
      * split; [intros [= <-]; eauto 10|]. by intros (? & ? & [= <- <-] & _ & _ & ->).
      * split; [done|]. intros (? & ? & [= <- <-] & _ & [? ?] & _). congruence.
    + split; [done|]. intros (? & ? & [= <- <-] & ? & _). congruence.
Qed.

Lemma cls_Some (p : N → bool) (k : matcher) (prev : option N) (s c : jsstring) :
  cls p k prev s = Some c ↔
  ∃ u rest, s = u :: rest ∧ p u = true ∧ k (Some u) rest = Some c.
Proof.
  unfold cls. destruct s as [|u s].
  - split; [done|]. by intros (? & ? & ? & _).
  - destruct (p u) eqn:E.
    + split; [eauto|]. by intros (? & ? & [= <- <-] & _ & ?).
    + split; [done|]. intros (? & ? & [= <- <-] & ? & _). congruence.
Qed.

(** A literal followed by a group of one code unit of a class matches
    exactly the texts holding the literal followed by such a unit, and
    captures one unit. *)
Lemma exec_lit_group1 (l : jsstring) (p : N → bool) (text : jsstring) :
  (is_Some (exec (lit l (group1 p accept)) text) ↔
   ∃ pre x post, text = pre ++ l ++ x :: post ∧ p x = true) ∧
  (∀ c, exec (lit l (group1 p accept)) text = Some c →
        ∃ pre x post, text = pre ++ l ++ x :: post ∧ p x = true ∧ c = [x]).
Proof.
  assert (Hc : ∀ c, exec (lit l (group1 p accept)) text = Some c →
                    ∃ pre x post, text = pre ++ l ++ x :: post ∧ p x = true ∧ c = [x]).
  { intros c (pre & post & -> & Hm)%search_Some.
    apply lit_Some in Hm as (rest & -> & Hg).
    apply group1_Some in Hg as (u & rest' & -> & Hp & _ & ->). eauto 10. }
  split; [split|done].
  - intros [c (pre & x & post & ? & ? & _)%Hc]. eauto.
  - intros (pre & x & post & -> & Hp). apply search_is_Some.
    assert (lit l (group1 p accept) (before None pre) (l ++ x :: post) = Some [x]) as ->;
      [|eauto].
    apply lit_Some. exists (x :: post). split; [done|].
    apply group1_Some. exists x, post. unfold accept. eauto 10.
Qed.

(** The expression for a quoted character. *)
Lemma exec_re_quoted (text : jsstring) :
  (is_Some (exec re_quoted text) ↔
   ∃ pre q1 x q2 post, text = pre ++ q1 :: x :: q2 :: post ∧
                       isQuote q1 = true ∧ isLowerAlnum x = true ∧ isQuote q2 = true) ∧
  (∀ c, exec re_quoted text = Some c →
        ∃ pre q1 x q2 post, text = pre ++ q1 :: x :: q2 :: post ∧
                            isQuote q1 = true ∧ isLowerAlnum x = true ∧
                            isQuote q2 = true ∧ c = [x]).
Proof.
  assert (Hc : ∀ c, exec re_quoted text = Some c →
               ∃ pre q1 x q2 post, text = pre ++ q1 :: x :: q2 :: post ∧
                            isQuote q1 = true ∧ isLowerAlnum x = true ∧
                            isQuote q2 = true ∧ c = [x]).
  { intros c (pre & post & -> & Hm)%search_Some. unfold re_quoted in Hm.
    apply cls_Some in Hm as (q1 & r1 & -> & Hq1 & Hm).
    apply group1_Some in Hm as (x & r2 & -> & Hx & [c' Hm] & ->).
    apply cls_Some in Hm as (q2 & r3 & -> & Hq2 & _). eauto 15. }
  split; [split|done].
  - intros [c (pre & q1 & x & q2 & post & ? & ? & ? & ? & _)%Hc]. eauto 10.
  - intros (pre & q1 & x & q2 & post & -> & Hq1 & Hx & Hq2). apply search_is_Some.
    exists [x]. unfold re_quoted. apply cls_Some. exists q1, (x :: q2 :: post).
    repeat split; [done|]. apply group1_Some. exists x, (q2 :: post).
    repeat split; [done|]. exists []. apply cls_Some. exists q2, post. done.
Qed.

(** A literal alone matches exactly the texts that hold it. *)
Lemma test_lit (l text : jsstring) :
  test (lit l accept) text = true ↔ ∃ pre post, text = pre ++ l ++ post.
Proof.
  unfold test. rewrite bool_decide_eq_true. split.
  - intros [c (pre & post & -> & Hm)%search_Some].
    apply lit_Some in Hm as (rest & -> & _). eauto.
  - intros (pre & post & ->). apply search_is_Some. exists [].
    apply lit_Some. by exists post.
Qed.

(** *** Runs of digits *)

Lemma span_digits (s : jsstring) :
  forallb isDigit (span isDigit s).1 = true.
Proof.
  induction s as [|u s IH]; simpl; [done|].
  destruct (isDigit u) eqn:E; [|done].
  destruct (span isDigit s) as [a b]. simpl in *. by rewrite E, IH.
Qed.

(** The group of an expression closed by [(\d+)] is a non-empty run of
    digits. *)
Lemma exec_lit_digits1 (l text ds : jsstring) :
  exec (lit l digits1) text = Some ds → ds ≠ [] ∧ forallb isDigit ds = true.
Proof.
  intros (pre & post & -> & Hm)%search_Some.
  apply lit_Some in Hm as (rest & -> & Hd). unfold digits1 in Hd.
  pose proof (span_digits rest) as Hs.
  destruct (span isDigit rest).1 as [|d ds'] eqn:E; [done|].
  injection Hd as <-. done.
Qed.

Lemma span_app (p : N → bool) (s : jsstring) :
  (span p s).1 ++ (span p s).2 = s ∧
  from_option p false (head (span p s).2) = false.
Proof.
  induction s as [|u s [IH1 IH2]]; simpl; [done|].
  destruct (p u) eqn:E; [|by simpl].
  destruct (span p s) as [a b] eqn:Es. simpl in *. by rewrite IH1.
Qed.

(** An expression made of a literal and [(\d+)] matches the texts holding
    the literal followed by a digit, and captures the whole run of digits
    that follows the literal. *)
Lemma exec_lit_digits1_occurrence (l text : jsstring) :
  (is_Some (exec (lit l digits1) text) ↔
   ∃ pre d post, text = pre ++ l ++ d :: post ∧ isDigit d = true) ∧
  (∀ ds, exec (lit l digits1) text = Some ds →
         ∃ pre post, text = pre ++ l ++ ds ++ post ∧ ds ≠ [] ∧
                     forallb isDigit ds = true ∧
                     from_option isDigit false (head post) = false).
Proof.
  assert (Hc : ∀ ds, exec (lit l digits1) text = Some ds →
         ∃ pre post, text = pre ++ l ++ ds ++ post ∧ ds ≠ [] ∧
                     forallb isDigit ds = true ∧
                     from_option isDigit false (head post) = false).
  { intros ds Hex. destruct (exec_lit_digits1 _ _ _ Hex) as [Hne Hds].
    apply search_Some in Hex as (pre & post & -> & Hm).
    apply lit_Some in Hm as (rest & -> & Hd). unfold digits1 in Hd.
    destruct (span_app isDigit rest) as [Happ Hhead].
    destruct (span isDigit rest).1 as [|d ds'] eqn:E; [done|].
    injection Hd as <-. exists pre, (span isDigit rest).2.
    by rewrite Happ. }
  split; [split|done].
  - intros [ds Hex]. destruct (Hc ds Hex) as (pre & post & -> & Hne & Hds & _).
    destruct ds as [|d ds]; [done|]. simpl in Hds.
    apply andb_true_iff in Hds as [Hd _]. exists pre, d, (ds ++ post). done.
  - intros (pre & d & post & -> & Hd). apply search_is_Some.
    destruct (span isDigit post) as [a b] eqn:Es.
    exists (d :: a). apply lit_Some. exists (d :: post). split; [done|].
    unfold digits1. simpl. by rewrite Hd, Es.
Qed.

Lemma isDigit_cases (u : N) :
  isDigit u = true →
  u ∈ [48; 49; 50; 51; 52; 53; 54; 55; 56; 57]%N.
Proof. forget_host.
  unfold isDigit. intros [H1 H2]%andb_true_iff.
  apply N.leb_le in H1, H2.
  assert (u = 48 ∨ u = 49 ∨ u = 50 ∨ u = 51 ∨ u = 52 ∨ u = 53 ∨ u = 54 ∨ u = 55
          ∨ u = 56 ∨ u = 57)%N as Hu by lia.
  set_solver.
Qed.

Lemma digitsValue_from_digits (ds : jsstring) (acc : Z) :
  forallb isDigit ds = true → (0 ≤ acc)%Z →
  ∃ v, digitsValue_from 10 acc ds = Some v ∧ (0 ≤ v)%Z.
Proof.
  revert acc. induction ds as [|d ds IH]; intros acc Hds Hacc; simpl.
  - eauto.
  - simpl in Hds. apply andb_true_iff in Hds as [Hd Hds].
    unfold hexDigit. rewrite Hd.
    assert (48 ≤ Z.of_N d ≤ 57)%Z.
    { unfold isDigit in Hd. apply andb_true_iff in Hd as [H1 H2].
      apply N.leb_le in H1, H2. lia. }
    rewrite (proj2 (Z.ltb_lt (Z.of_N d - 48) 10)) by lia.
    apply IH; [done|lia].
Qed.

(** [parseInt] on a non-empty run of digits is the Number nearest to the
    integer the digits denote. *)
Lemma parseInt_digits (ds : jsstring) :
  ds ≠ [] → forallb isDigit ds = true →
  ∃ v, digitsValue 10 ds = Some v ∧ (0 ≤ v)%Z ∧ parseInt ds = num_of_Z v.
Proof.
  intros Hne Hds.
  destruct (digitsValue_from_digits ds 0 Hds) as (v & Hv & Hv0); [lia|].
  exists v. destruct ds as [|d ds']; [done|]. split; [done|]. split; [done|].
  unfold parseInt.
  assert (Hrun : ∀ s, forallb isDigit s = true →
            (fix run (s : jsstring) : jsstring :=
               match s with
               | u :: s' => if isDigit u then u :: run s' else []
               | [] => []
               end) s = s).
  { induction s as [|u s IH]; simpl; [done|].
    intros [-> Hs]%andb_true_iff. by rewrite IH. }
  pose proof Hds as Hd. simpl in Hd. apply andb_true_iff in Hd as [Hd _].
  apply isDigit_cases in Hd.
  assert (trimStart (d :: ds') = d :: ds') as ->.
  { simpl. replace (isWhiteSpace d) with false; [done|].
    repeat (apply elem_of_cons in Hd as [->|Hd]; [done|]). by apply elem_of_nil in Hd. }
  assert (match d :: ds' with
          | 45%N :: r => (true, r)
          | 43%N :: r => (false, r)
          | r => (false, r)
          end = (false, d :: ds')) as ->.
  { repeat (apply elem_of_cons in Hd as [->|Hd]; [done|]). by apply elem_of_nil in Hd. }
  rewrite (Hrun (d :: ds') Hds). unfold digitsValue. by rewrite Hv.
Qed.

(** *** parseNaturalLanguage *)

(** C2. The parser throws the invalid-query error when the query is not a
    non-empty string, and when no rule has set a field of the filters; it
    throws the conflicting-filters error when both bounds were derived
    and [min_length > max_length]; in every other case it returns the
    filters accumulated by the rules. *)
Theorem parseNaturalLanguage_outcome (q : option qsvalue) :
  (not_a_nonempty_string q = true →
   ∃ e, parseNaturalLanguage q = inl e ∧ InvalidQuery e) ∧
  (∀ s, q = Some (QsString s) → s ≠ [] →
     let filters := accumulate (trim (toLowerCase s)) in
     (Filters.keys filters = 0 →
      ∃ e, parseNaturalLanguage q = inl e ∧ InvalidQuery e) ∧
     (∀ lo hi,
        Filters.min_length filters = Some lo → Filters.max_length filters = Some hi →
        num_gtb lo hi = true →
        ∃ e, parseNaturalLanguage q = inl e ∧ ConflictingFilters e) ∧
     (Filters.keys filters ≠ 0 →
      ¬ (∃ lo hi, Filters.min_length filters = Some lo ∧
                  Filters.max_length filters = Some hi ∧ num_gtb lo hi = true) →
      parseNaturalLanguage q = inr filters)).
Proof.
  split.
  - intros Hq. exists (Throw 400 "query must be a non-empty string").
    split; [|done]. destruct q as [[[|u s]| |]|]; done.
  - intros s -> Hs filters. destruct s as [|u s]; [done|]. simpl. fold filters.
    unfold check_filters. split; [|split].
    + intros Hk. rewrite Hk. simpl. eexists. split; [reflexivity|done].
    + intros lo hi Hlo Hhi Hgt.
      assert (Filters.keys filters ≠ 0) as Hk.
      { unfold Filters.keys. rewrite Hlo, Hhi. simpl. lia. }
      apply Nat.eqb_neq in Hk. rewrite Hk.
      unfold Filters.conflicting. rewrite Hlo, Hhi, Hgt.
      eexists. split; [reflexivity|done].
    + intros Hk Hnc. apply Nat.eqb_neq in Hk. rewrite Hk.
      destruct (Filters.conflicting filters) eqn:Hc; [|done].
      exfalso. apply Hnc. unfold Filters.conflicting in Hc.
      destruct (Filters.min_length filters) as [lo|]; [|done].
      destruct (Filters.max_length filters) as [hi|]; [|done]. eauto.
Qed.

(** *** The rules for min_length *)

Lemma num_le_refl (x : number) : x ≠ NaN → num_le x x.
Proof. destruct x as [|a|[]]; simpl; intros H; try done; [apply Qle_refl|auto..]. Qed.

Lemma num_ltb_le (x y : number) : num_ltb x y = true → num_le x y.
Proof.
  destruct x as [|a|[]], y as [|b|[]]; simpl; try done; auto.
  destruct (Qlt_le_dec a b); [|done]. intros _. by apply Qlt_le_weak.
Qed.

Lemma Math_max_upper (x y : number) :
  x ≠ NaN → y ≠ NaN → num_le x (Math_max x y).
Proof.
  intros Hx Hy. unfold Math_max.
  destruct (num_ltb x y) eqn:E.
  - apply num_ltb_le in E. destruct x, y; done.
  - destruct x, y; try done; by apply num_le_refl.
Qed.

Lemma binary64_not_NaN (q : Q) : binary64 q ≠ NaN.
Proof.
  unfold binary64. destruct (Z.abs (Qnum q) =? 0)%Z; [done|].
  destruct (scale _ _ _) as [n d]. by destruct (_ && _).
Qed.

Lemma inject_Z_plus_eq (a b : Z) : (inject_Z a + inject_Z b)%Q = inject_Z (a + b).
Proof. unfold Qplus, inject_Z. simpl. f_equal. lia. Qed.

Lemma matched_number_Some (l text : jsstring) (N : Z) :
  matched_number (lit l digits1) text = Some N →
  ∃ ds, exec (lit l digits1) text = Some ds ∧ parseInt ds = num_of_Z N ∧ (0 ≤ N)%Z.
Proof.
  unfold matched_number. destruct (exec (lit l digits1) text) as [ds|] eqn:E; [|done].
  simpl. intros HN. exists ds. split; [done|].
  destruct (exec_lit_digits1 _ _ _ E) as [Hne Hds].
  destruct (parseInt_digits ds Hne Hds) as (v & Hv & Hv0 & Hp).
  rewrite Hv in HN. injection HN as <-. done.
Qed.

Lemma matched_number_None (l text : jsstring) :
  matched_number (lit l digits1) text = None → exec (lit l digits1) text = None.
Proof.
  unfold matched_number. destruct (exec (lit l digits1) text) as [ds|] eqn:E; [|done].
  simpl. intros HN. destruct (exec_lit_digits1 _ _ _ E) as [Hne Hds].
  destruct (parseInt_digits ds Hne Hds) as (v & Hv & _). congruence.
Qed.

(** What it is for a text to match "longer than N" or "at least N": the
    literal occurs followed by a digit; N is the value of the run of digits
    after the leftmost such occurrence. *)
Lemma matched_number_occurrence (l text : jsstring) :
  (is_Some (matched_number (lit l digits1) text) ↔
   ∃ pre d post, text = pre ++ l ++ d :: post ∧ isDigit d = true) ∧
  (∀ N, matched_number (lit l digits1) text = Some N →
        ∃ pre ds post, text = pre ++ l ++ ds ++ post ∧
                       forallb isDigit ds = true ∧
                       from_option isDigit false (head post) = false ∧
                       digitsValue 10 ds = Some N).
Proof.
  destruct (exec_lit_digits1_occurrence l text) as [Hex Hcap]. split; [split|].
  - intros [N HN]. apply Hex. unfold matched_number in HN.
    destruct (exec (lit l digits1) text); [eauto|done].
  - intros [ds Hds]%Hex. unfold matched_number. rewrite Hds. simpl.
    destruct (exec_lit_digits1 _ _ _ Hds) as [Hne Hall].
    destruct (parseInt_digits ds Hne Hall) as (v & -> & _). eauto.
  - intros N HN. unfold matched_number in HN.
    destruct (exec (lit l digits1) text) as [ds|] eqn:E; [|done]. simpl in HN.
    destruct (Hcap ds eq_refl) as (pre & post & -> & _ & Hall & Hhead). eauto 10.
Qed.

Lemma min_length_accumulate (text : jsstring) :
  Filters.min_length (accumulate text) =
  Filters.min_length
    (rule_at_least text (rule_longer text
       (rule_single_word text (rule_palindrome text Filters.empty)))).
Proof.
  unfold accumulate, rule_contains, rule_shorter.
  repeat (match goal with |- context [match ?x with _ => _ end] => destruct x end;
          simpl; try done).
Qed.

Lemma min_length_first_rules (text : jsstring) :
  Filters.min_length (rule_single_word text (rule_palindrome text Filters.empty)) = None.
Proof.
  unfold rule_single_word, rule_palindrome.
  by destruct (test re_single_word text), (test re_palindrome text).
Qed.

Lemma rule_longer_min_length (text : jsstring) (filters : FilterSet) (N : Z) :
  matched_number re_longer text = Some N → (N < 2 ^ 53)%Z →
  Filters.min_length (rule_longer text filters) = Some (Finite (inject_Z (N + 1))).
Proof.
  intros (ds & Hex & Hp & HN)%matched_number_Some Hsafe.
  unfold rule_longer. fold re_longer in Hex. rewrite Hex, Hp.
  unfold num_of_Z. rewrite (binary64_integer N), (binary64_integer 1) by lia.
  cbn [isNaN negb Filters.min_length Filters.set_min_length num_add].
  rewrite inject_Z_plus_eq, binary64_integer by lia. done.
Qed.

Lemma rule_at_least_min_length (text : jsstring) (filters : FilterSet) (M : Z) :
  matched_number re_at_least text = Some M → (M ≤ 2 ^ 53)%Z →
  Filters.min_length (rule_at_least text filters) =
  Some (Math_max (default (Finite 0) (Filters.min_length filters)) (Finite (inject_Z M))).
Proof.
  intros (ds & Hex & Hp & HM)%matched_number_Some Hsafe.
  unfold rule_at_least. fold re_at_least in Hex. rewrite Hex, Hp.
  unfold num_of_Z. rewrite (binary64_integer M), (binary64_integer 0) by lia.
  done.
Qed.

Lemma rule_at_least_never_lowers (text : jsstring) (filters : FilterSet) (lo : number) :
  Filters.min_length filters = Some lo → lo ≠ NaN →
  ∃ lo', Filters.min_length (rule_at_least text filters) = Some lo' ∧ num_le lo lo'.
Proof.
  intros Hlo Hnan. unfold rule_at_least.
  destruct (exec re_at_least text) as [ds|]; [|exists lo; by auto using num_le_refl].
  destruct (isNaN (parseInt ds)) eqn:E; simpl; [exists lo; by auto using num_le_refl|].
  rewrite Hlo. simpl. eexists. split; [done|].
  apply Math_max_upper; [done|]. by destruct (parseInt ds).
Qed.

(** C3, as the program has it.  A text matches "longer than N" (or
    "at least N") when it holds that literal followed by digits, N being
    the run of digits after the leftmost occurrence.  When the text matches
    "longer than N" with N below 2^53 the rule sets [min_length] to N + 1;
    when it matches "at least M" with M at most 2^53 the rule sets
    [min_length] to the greater of M and the bound set before (0 when none
    was set); the latter rule never lowers a bound already set, whatever M;
    and "strings longer than 10 characters" gives [min_length = 11] alone. *)
Theorem min_length_rules :
  (∀ l text,
     (is_Some (matched_number (lit l digits1) text) ↔
      ∃ pre d post, text = pre ++ l ++ d :: post ∧ isDigit d = true) ∧
     (∀ N, matched_number (lit l digits1) text = Some N →
           ∃ pre ds post, text = pre ++ l ++ ds ++ post ∧
                          forallb isDigit ds = true ∧
                          from_option isDigit false (head post) = false ∧
                          digitsValue 10 ds = Some N)) ∧
  (∀ text filters N,
     matched_number re_longer text = Some N → (N < 2 ^ 53)%Z →
     Filters.min_length (rule_longer text filters) = Some (Finite (inject_Z (N + 1)))) ∧
  (∀ text filters M,
     matched_number re_at_least text = Some M → (M ≤ 2 ^ 53)%Z →
     Filters.min_length (rule_at_least text filters) =
     Some (Math_max (default (Finite 0) (Filters.min_length filters))
                    (Finite (inject_Z M)))) ∧
  (∀ text filters lo,
     Filters.min_length filters = Some lo → lo ≠ NaN →
     ∃ lo', Filters.min_length (rule_at_least text filters) = Some lo' ∧ num_le lo lo') ∧
  (∀ text,
     (∀ N, matched_number re_longer text = Some N → (N < 2 ^ 53)%Z) →
     (∀ M, matched_number re_at_least text = Some M → (M ≤ 2 ^ 53)%Z) →
     Filters.min_length (accumulate text) =
     match matched_number re_longer text, matched_number re_at_least text with
     | Some N, Some M => Some (Finite (inject_Z (Z.max (N + 1) M)))
     | Some N, None => Some (Finite (inject_Z (N + 1)))
     | None, Some M => Some (Finite (inject_Z M))
     | None, None => None
     end) ∧
  parseNaturalLanguage (Some (QsString (js "strings longer than 10 characters"))) =
  inr (Filters.set_min_length (Finite (inject_Z 11)) Filters.empty).
Proof using toLowerCase_ascii.
  split; [exact matched_number_occurrence|].
  split; [exact rule_longer_min_length|].
  split; [exact rule_at_least_min_length|].
  split; [exact rule_at_least_never_lowers|].
  split.
  - intros text HN HM. rewrite min_length_accumulate.
    set (f0 := rule_single_word text (rule_palindrome text Filters.empty)).
    pose proof (min_length_first_rules text) as H0. fold f0 in H0.
    destruct (matched_number re_longer text) as [N|] eqn:EN;
      destruct (matched_number re_at_least text) as [M|] eqn:EM.
    + specialize (HN N eq_refl). specialize (HM M eq_refl).
      rewrite (rule_at_least_min_length _ _ M EM HM).
      rewrite (rule_longer_min_length _ _ N EN HN). simpl.
      unfold Math_max, num_ltb.
      destruct (Qlt_le_dec (inject_Z (N + 1)) (inject_Z M)) as [Hlt|Hle].
      * rewrite <- Zlt_Qlt in Hlt. do 2 f_equal. f_equal. lia.
      * rewrite <- Zle_Qle in Hle. do 2 f_equal. f_equal. lia.
    + specialize (HN N eq_refl). apply matched_number_None in EM.
      unfold rule_at_least. fold re_at_least in EM. rewrite EM.
      by apply rule_longer_min_length.
    + specialize (HM M eq_refl). apply matched_number_None in EN.
      rewrite (rule_at_least_min_length _ _ M EM HM).
      unfold rule_longer. fold re_longer in EN. rewrite EN, H0. simpl.
      apply matched_number_Some in EM as (_ & _ & _ & HM0).
      unfold Math_max, num_ltb.
      destruct (Qlt_le_dec 0 (inject_Z M)) as [Hlt|Hle]; [done|].
      change 0%Q with (inject_Z 0) in Hle. rewrite <- Zle_Qle in Hle.
      by replace M with 0%Z by lia.
    + apply matched_number_None in EN, EM.
      unfold rule_at_least, rule_longer. fold re_at_least in EM. fold re_longer in EN.
      by rewrite EM, EN.
  - remember (js "strings longer than 10 characters") as s eqn:Hs.
    vm_compute in Hs. subst s. unfold parseNaturalLanguage.
    rewrite toLowerCase_ascii by reflexivity. by vm_compute.
Qed.

(** *** The rule for contains_character *)

Lemma contains_character_before (text : jsstring) :
  Filters.contains_character
    (rule_shorter text (rule_at_least text (rule_longer text
       (rule_single_word text (rule_palindrome text Filters.empty))))) = None.
Proof.
  unfold rule_shorter, rule_at_least, rule_longer, rule_single_word, rule_palindrome.
  repeat (match goal with |- context [match ?x with _ => _ end] => destruct x end;
          simpl; try done).
Qed.

Lemma find_contains_first_match (text : jsstring) :
  find_contains text =
  match exec re_letter text with
  | Some c => Some c
  | None =>
      match exec re_containing text with
      | Some c => Some c
      | None =>
          match exec re_quoted text with
          | Some c => Some c
          | None => if test re_first_vowel text then Some (js "a") else None
          end
      end
  end.
Proof.
  unfold find_contains.
  destruct (exec re_letter text) as [c|] eqn:Ea.
  { apply exec_lit_group1 in Ea as (? & x & ? & _ & _ & ->). done. }
  destruct (exec re_containing text) as [c|] eqn:Eb.
  { apply exec_lit_group1 in Eb as (? & x & ? & _ & _ & ->). done. }
  destruct (exec re_quoted text) as [c|] eqn:Ec.
  { apply exec_re_quoted in Ec as (? & ? & x & ? & ? & _ & _ & _ & _ & ->). done. }
  simpl. by destruct (test re_first_vowel text).
Qed.

Lemma find_contains_truthy (text c : jsstring) :
  find_contains text = Some c → truthy (Some c) = true.
Proof.
  rewrite find_contains_first_match.
  destruct (exec re_letter text) as [c1|] eqn:Ea.
  { apply exec_lit_group1 in Ea as (? & x & ? & _ & _ & ->). by intros [= <-]. }
  destruct (exec re_containing text) as [c2|] eqn:Eb.
  { apply exec_lit_group1 in Eb as (? & x & ? & _ & _ & ->). by intros [= <-]. }
  destruct (exec re_quoted text) as [c3|] eqn:Ec.
  { apply exec_re_quoted in Ec as (? & ? & x & ? & ? & _ & _ & _ & _ & ->).
    by intros [= <-]. }
  destruct (test re_first_vowel text); [|done]. by intros [= <-].
Qed.

(** C4, as the program has it.  The character to contain is given by the
    first of four expressions that matches the text, the later ones being
    ignored: "containing the letter X" with X a word character;
    "containing X" with X a digit or a lowercase letter; a digit or a
    lowercase letter between two quotation marks; the phrase
    "first vowel", which stands for the letter a.  A quoted character
    that is neither a digit nor a letter is not taken. *)
Theorem contains_character_priority :
  (∀ text,
     Filters.contains_character (accumulate text) =
     match exec re_letter text with
     | Some c => Some c
     | None =>
         match exec re_containing text with
         | Some c => Some c
         | None =>
             match exec re_quoted text with
             | Some c => Some c
             | None => if test re_first_vowel text then Some (js "a") else None
             end
         end
     end) ∧
  (∀ text,
     (is_Some (exec re_letter text) ↔
      ∃ pre x post, text = pre ++ js "containing the letter " ++ x :: post ∧
                    isWordChar x = true) ∧
     (∀ c, exec re_letter text = Some c →
           ∃ pre x post, text = pre ++ js "containing the letter " ++ x :: post ∧
                         isWordChar x = true ∧ c = [x])) ∧
  (∀ text,
     (is_Some (exec re_containing text) ↔
      ∃ pre x post, text = pre ++ js "containing " ++ x :: post ∧
                    isLowerAlnum x = true) ∧
     (∀ c, exec re_containing text = Some c →
           ∃ pre x post, text = pre ++ js "containing " ++ x :: post ∧
                         isLowerAlnum x = true ∧ c = [x])) ∧
  (∀ text,
     (is_Some (exec re_quoted text) ↔
      ∃ pre q1 x q2 post, text = pre ++ q1 :: x :: q2 :: post ∧
                          isQuote q1 = true ∧ isLowerAlnum x = true ∧
                          isQuote q2 = true) ∧
     (∀ c, exec re_quoted text = Some c →
           ∃ pre q1 x q2 post, text = pre ++ q1 :: x :: q2 :: post ∧
                               isQuote q1 = true ∧ isLowerAlnum x = true ∧
                               isQuote q2 = true ∧ c = [x])) ∧
  (∀ text,
     test re_first_vowel text = true ↔ ∃ pre post, text = pre ++ js "first vowel" ++ post) ∧
  parseNaturalLanguage
    (Some (QsString (js "palindromic strings that contain the first vowel"))) =
  inr (Filters.set_contains_character (js "a")
         (Filters.set_is_palindrome true Filters.empty)).
Proof using toLowerCase_ascii.
  split; [|split; [|split; [|split; [|split]]]].
  - intros text. rewrite <- find_contains_first_match.
    unfold accumulate, rule_contains at 1.
    pose proof (contains_character_before text) as Hb.
    destruct (find_contains text) as [c|] eqn:E; [|done].
    by rewrite (find_contains_truthy _ _ E).
  - intros text. apply exec_lit_group1.
  - intros text. apply exec_lit_group1.
  - exact exec_re_quoted.
  - intros text. apply test_lit.
  - remember (js "palindromic strings that contain the first vowel") as s eqn:Hs.
    vm_compute in Hs. subst s. unfold parseNaturalLanguage.
    rewrite toLowerCase_ascii by reflexivity. by vm_compute.
Qed.

(** *** The store *)

(** What [POST /strings] does with a string. *)
Lemma post_strings_string (now : Z) (disk : bool) (s : jsstring) (DB : store) :
  post_strings now disk (ValueString s) DB =
  match DB !! sha256Hex s with
  | Some _ => (DB, Respond 409 (ErrorJson "String already exists in the system"))
  | None =>
      match sha256Hex s with
      | [] => (DB, Respond 500 (ErrorJson "Server error"))
      | _ =>
          let record := StringRecord.mk (sha256Hex s) s (analyzeString s) now in
          (<[sha256Hex s := record]> DB,
           if disk then Respond 201 (RecordJson record)
           else Respond 500 (ErrorJson "Server error"))
      end
  end.
Proof.
  unfold post_strings, getById, insertRecord.
  change (Properties.sha256_hash (analyzeString s)) with (sha256Hex s).
  destruct (DB !! sha256Hex s) as [old|] eqn:E; [done|].
  cbn [StringRecord.id].
  destruct (sha256Hex s) as [|h hs] eqn:Eh; [done|].
  rewrite E. by destruct disk.
Qed.

Lemma post_strings_created (now : Z) (disk : bool) (s : jsstring) (DB DB1 : store)
    (r : StringRecord.t) :
  post_strings now disk (ValueString s) DB = (DB1, Respond 201 (RecordJson r)) →
  r = StringRecord.mk (sha256Hex s) s (analyzeString s) now ∧
  DB !! sha256Hex s = None ∧
  DB1 = <[sha256Hex s := r]> DB.
Proof.
  rewrite post_strings_string.
  destruct (DB !! sha256Hex s) as [old|]; [done|].
  destruct (sha256Hex s) as [|h hs]; [done|].
  destruct disk; [|done]. by intros [= <- <-].
Qed.

(** Every record of a reachable store sits under its own id and holds the
    analysis of its value. *)
Lemma reachable_analysed (DB : store) :
  reachable DB →
  ∀ id r, DB !! id = Some r →
          StringRecord.id r = id ∧
          id = sha256Hex (StringRecord.value r) ∧
          StringRecord.properties r = analyzeString (StringRecord.value r).
Proof.
  induction 1 as [|now disk body DB Hr IH|disk raw DB Hr IH]; intros id r Hl.
  - by rewrite lookup_empty in Hl.
  - destruct body as [| |value]; [by apply IH..|].
    rewrite post_strings_string in Hl.
    destruct (DB !! sha256Hex value) as [old|] eqn:Eold; [by apply IH|].
    destruct (sha256Hex value) as [|h hs] eqn:Eh; [by apply IH|].
    cbn [fst] in Hl.
    destruct (decide (h :: hs = id)) as [<-|Hne].
    + rewrite lookup_insert_eq in Hl. injection Hl as <-. by rewrite <- Eh.
    + rewrite lookup_insert_ne in Hl by done. by apply IH.
  - unfold delete_string in Hl.
    destruct (decodeURIComponent raw) as [decoded|]; [|by apply IH].
    unfold deleteById in Hl. destruct (DB !! sha256Hex decoded) eqn:E; [|by apply IH].
    assert (Hl' : delete (sha256Hex decoded) DB !! id = Some r) by (by destruct disk).
    apply lookup_delete_Some in Hl' as [_ Hl']. by apply IH.
Qed.

(** *** The filter evaluator *)

Lemma num_ltb_false_le (x y : number) :
  x ≠ NaN → y ≠ NaN → num_ltb x y = false ↔ num_le y x.
Proof.
  intros Hx Hy. destruct x as [|a|[]], y as [|b|[]]; simpl; try done.
  - destruct (Qlt_le_dec a b) as [Hlt|Hle]; split; try done.
    intros Hle. by apply Qlt_not_le in Hlt.
  - intuition.
  - intuition congruence.
  - intuition.
  - intuition.
Qed.

Lemma num_eqb_eq (x y : number) : num_eqb x y = true ↔ num_eq x y.
Proof.
  destruct x as [|a|s], y as [|b|t]; simpl; try done.
  - apply Qeq_bool_iff.
  - by destruct s, t.
Qed.

(** The callback as a conjunction of its five tests. *)
Lemma matches_conjunction (filters : FilterSet) (r : StringRecord.t) :
  let props := StringRecord.properties r in
  matches filters r = true ↔
  (∀ b, Filters.is_palindrome filters = Some b →
        Bool.eqb (Properties.is_palindrome props) b = true) ∧
  (∀ n, Filters.min_length filters = Some n →
        num_ltb (num_of_nat (Properties.length props)) n = false) ∧
  (∀ n, Filters.max_length filters = Some n →
        num_gtb (num_of_nat (Properties.length props)) n = false) ∧
  (∀ n, Filters.word_count filters = Some n →
        num_eqb (num_of_nat (Properties.word_count props)) n = true) ∧
  (∀ ch, Filters.contains_character filters = Some ch →
         is_Some (Properties.character_frequency_map props !! ch)).
Proof.
  intros props. unfold matches. fold props.
  destruct filters as [fp fmin fmax fwc fch]. cbn [Filters.is_palindrome
    Filters.min_length Filters.max_length Filters.word_count Filters.contains_character].
  split.
  - intros H. repeat split; intros x ->.
    + by destruct (Bool.eqb _ x).
    + destruct fp as [b|]; [destruct (Bool.eqb _ b); [|done]|];
        by destruct (num_ltb _ x).
    + destruct fp as [b|]; [destruct (Bool.eqb _ b); [|done]|];
        (destruct fmin as [lo|]; [destruct (num_ltb _ lo); [done|]|]);
        by destruct (num_gtb _ x).
    + destruct fp as [b|]; [destruct (Bool.eqb _ b); [|done]|];
        (destruct fmin as [lo|]; [destruct (num_ltb _ lo); [done|]|]);
        (destruct fmax as [hi|]; [destruct (num_gtb _ hi); [done|]|]);
        by destruct (num_eqb _ x).
    + destruct fp as [b|]; [destruct (Bool.eqb _ b); [|done]|];
        (destruct fmin as [lo|]; [destruct (num_ltb _ lo); [done|]|]);
        (destruct fmax as [hi|]; [destruct (num_gtb _ hi); [done|]|]);
        (destruct fwc as [w|]; [destruct (num_eqb _ w); [|done]|]);
        by destruct (decide (is_Some (Properties.character_frequency_map props !! x)));
        [|rewrite bool_decide_eq_false_2 in H].
  - intros (Hp & Hlo & Hhi & Hw & Hch).
    destruct fp as [b|]; [rewrite (Hp b eq_refl)|];
      (destruct fmin as [lo|]; [rewrite (Hlo lo eq_refl)|]);
      (destruct fmax as [hi|]; [rewrite (Hhi hi eq_refl)|]);
      (destruct fwc as [w|]; [rewrite (Hw w eq_refl)|]);
      (destruct fch as [ch|]; [rewrite bool_decide_eq_true_2 by auto|]); done.
Qed.

(** C1. On a record of the store and filters without NaN, the evaluator
    answers true exactly when every field present in the filters agrees
    with the properties of the record: [is_palindrome] by equality of the
    booleans, [min_length] as a lower and [max_length] as an upper bound
    of the length, [word_count] by equality, and [contains_character] by
    being a key of the frequency map with a count that is not zero; an
    absent field asks nothing. *)
Theorem matches_iff_every_field_agrees
    (DB : store) (id : jsstring) (r : StringRecord.t) (filters : FilterSet) :
  reachable DB → DB !! id = Some r → no_NaN filters →
  let props := StringRecord.properties r in
  matches filters r = true ↔
  (∀ b, Filters.is_palindrome filters = Some b → Properties.is_palindrome props = b) ∧
  (∀ n, Filters.min_length filters = Some n →
        num_le n (num_of_nat (Properties.length props))) ∧
  (∀ n, Filters.max_length filters = Some n →
        num_le (num_of_nat (Properties.length props)) n) ∧
  (∀ n, Filters.word_count filters = Some n →
        num_eq (num_of_nat (Properties.word_count props)) n) ∧
  (∀ ch, Filters.contains_character filters = Some ch →
         ∃ k, Properties.character_frequency_map props !! ch = Some k ∧ k ≠ 0).
Proof.
  intros Hreach Hl (Hmin & Hmax & Hwc) props.
  destruct (reachable_analysed DB Hreach id r Hl) as (_ & _ & Hprops).
  assert (Hfreq : ∀ ch, is_Some (Properties.character_frequency_map props !! ch) ↔
                        ∃ k, Properties.character_frequency_map props !! ch = Some k ∧ k ≠ 0).
  { intros ch. unfold props. rewrite Hprops. simpl. split.
    - intros [k Hk]. exists k. split; [done|]. by eapply charFrequencyMap_positive.
    - intros (k & Hk & _). eauto. }
  assert (Hnum : ∀ n, num_of_nat n ≠ NaN) by (intros n; apply binary64_not_NaN).
  rewrite matches_conjunction. fold props.
  split; intros (Hp & Hlo & Hhi & Hw & Hch); repeat split.
  - intros b Hb. by apply Bool.eqb_prop, Hp.
  - intros n Hn. apply num_ltb_false_le; [apply Hnum|intros ->; congruence|auto].
  - intros n Hn. apply (num_ltb_false_le n); [intros ->; congruence|apply Hnum|]. by apply Hhi.
  - intros n Hn. by apply num_eqb_eq, Hw.
  - intros ch Hc. by apply Hfreq, Hch.
  - intros b Hb. rewrite (Hp b Hb). apply Bool.eqb_reflx.
  - intros n Hn. apply num_ltb_false_le; [apply Hnum|intros ->; congruence|auto].
  - intros n Hn. apply (num_ltb_false_le n); [intros ->; congruence|apply Hnum|]. by apply Hhi.
  - intros n Hn. by apply num_eqb_eq, Hw.
  - intros ch Hc. by apply Hfreq, Hch.
Qed.

(** *** Insertion, lookup and deletion *)

(** C6. Once [POST /strings] has created the record of a string, a second
    [POST /strings] of the same string is answered with the
    already-exists error and leaves the store as it was; the record
    created first is still the one stored. *)
Theorem duplicate_insert_rejected
    (DB DB1 : store) (s : jsstring) (now now' : Z) (disk disk' : bool)
    (r : StringRecord.t) :
  post_strings now disk (ValueString s) DB = (DB1, Respond 201 (RecordJson r)) →
  AlreadyExists (post_strings now' disk' (ValueString s) DB1).2 ∧
  (post_strings now' disk' (ValueString s) DB1).1 = DB1 ∧
  getById (sha256Hex s) DB1 = Some r ∧
  StringRecord.value r = s ∧
  StringRecord.created_at r = now.
Proof.
  intros (Hr & Hfresh & ->)%post_strings_created.
  rewrite post_strings_string. unfold getById.
  rewrite lookup_insert_eq. simpl.
  repeat split; [by eexists|by rewrite Hr..].
Qed.

(** The two handlers of [/strings/:string_value] on a parameter that
    [decodeURIComponent] takes to a stored string: the lookup answers with
    the record, whose id is the digest of the string; after the deletion by
    the same parameter, the lookup answers not-found. *)
Lemma insert_lookup_delete
    (DB DB1 : store) (s raw : jsstring) (now : Z) (disk : bool) (r : StringRecord.t) :
  post_strings now disk (ValueString s) DB = (DB1, Respond 201 (RecordJson r)) →
  decodeURIComponent raw = Some s →
  get_string raw DB1 = Respond 200 (RecordJson r) ∧
  r = StringRecord.mk (sha256Hex s) s (analyzeString s) now ∧
  ∀ disk',
    ((delete_string disk' raw DB1).2 = Respond 204 NoContent ↔ disk' = true) ∧
    NotFound (get_string raw (delete_string disk' raw DB1).1).
Proof.
  intros (Hr & Hfresh & ->)%post_strings_created Hraw.
  unfold get_string, delete_string, deleteById, getById. rewrite Hraw.
  rewrite lookup_insert_eq. repeat split; [done|..].
  - destruct disk'; simpl; [done|]. by intros [=].
  - by destruct disk'.
  - assert (Hgone : (delete (sha256Hex s) (<[sha256Hex s := r]> DB)) !! sha256Hex s = None)
      by apply lookup_delete_eq.
    destruct disk'; simpl; rewrite Hgone; by eexists.
Qed.

(** C7, at the inputs where the program departs from it.  Express has
    decoded the segment of the path when the handler runs, so for a request
    that names the string [s], [req.params.string_value] is [s]; the
    handlers decode it a second time.  When [s] holds a [%] that is not
    followed by two hexadecimal digits (as in [100%]) the second decoding
    throws: just after [POST /strings] has created the record of [s], which
    is stored under the digest of [s], the lookup by [s] answers 400, not
    the record, and the deletion by [s] answers 400 and leaves the record
    stored, so that no later lookup answers not-found for it. *)
Theorem percent_string_lookup_refused
    (DB DB1 : store) (s pre after : jsstring) (now : Z) (disk : bool)
    (r : StringRecord.t) :
  post_strings now disk (ValueString s) DB = (DB1, Respond 201 (RecordJson r)) →
  s = pre ++ 37%N :: after → incomplete_escape after = true →
  getById (sha256Hex s) DB1 = Some r ∧
  get_string s DB1 = Respond 400 (ErrorJson "Invalid URL-encoded string") ∧
  get_string s DB1 ≠ Respond 200 (RecordJson r) ∧
  ∀ disk',
    delete_string disk' s DB1 =
      (DB1, Respond 400 (ErrorJson "Invalid URL-encoded string")) ∧
    ¬ NotFound (get_string s (delete_string disk' s DB1).1).
Proof using decodeURIComponent_incomplete_escape.
  intros (Hr & Hfresh & ->)%post_strings_created Hs Hafter.
  assert (Hthrows : decodeURIComponent s = None)
    by (rewrite Hs; by apply decodeURIComponent_incomplete_escape).
  unfold get_string, delete_string, getById. rewrite Hthrows, lookup_insert_eq.
  split; [done|]. split; [done|]. split; [done|].
  intros disk'. cbn [fst]. split; [done|]. try rewrite Hthrows. by intros [b Hb].
Qed.

(** *** GET /strings: what the validation lets through *)

(** A numeric parameter is refused exactly when it converts to NaN. *)
Lemma numeric_param_refused (x : qsvalue) (refusal : string) :
  (isNaN (Number_of x) = true → numeric_param x refusal = inl (Respond 400 (ErrorJson refusal))) ∧
  (isNaN (Number_of x) = false → numeric_param x refusal = inr (Number_of x)).
Proof. unfold numeric_param. by destruct (isNaN (Number_of x)). Qed.

(** C8, at the input where the program departs from it.  The request
    [GET /strings?min_length=3.5] passes the validation: the filters hold
    [min_length = 3.5], which is not an integer, and the answer is the
    listing with status 200, not a refusal. *)
Theorem fractional_min_length_accepted (DB : store) :
  let q := Query.mk None (Some (QsString (js "3.5"))) None None None in
  let filters := Filters.set_min_length (Finite (7 # 2)) Filters.empty in
  validate q = inr filters ∧
  ¬ is_integer (Finite (7 # 2)) ∧
  get_strings q DB =
    Respond 200 (ListJson (listRecords filters DB) (length (listRecords filters DB)) filters) ∧
  ¬ InvalidFilter (get_strings q DB).
Proof.
  intros q filters.
  assert (Hv : validate q = inr filters) by (by vm_compute).
  split; [done|]. split.
  { intros [z Hz]. unfold num_eq, Qeq in Hz. simpl in Hz. lia. }
  unfold get_strings. rewrite Hv. split; [done|]. by intros [b [=]].
Qed.

(** *** The filters the two listing routes evaluate hold no NaN *)

Lemma num_add_not_NaN (x : number) (b : Q) :
  x ≠ NaN → num_add x (Finite b) ≠ NaN.
Proof. destruct x; simpl; [done|intros _; apply binary64_not_NaN|done]. Qed.

Lemma Math_max_not_NaN (x y : number) : x ≠ NaN → y ≠ NaN → Math_max x y ≠ NaN.
Proof. unfold Math_max. destruct x, y; try done; by destruct (num_ltb _ _). Qed.

Lemma isNaN_false (x : number) : isNaN x = false → x ≠ NaN.
Proof. by destruct x. Qed.

Lemma accumulate_no_NaN (text : jsstring) : no_NaN (accumulate text).
Proof.
  assert (H1 : num_of_Z 1 = Finite (inject_Z 1)) by (by vm_compute).
  assert (H0 : num_of_Z 0 = Finite (inject_Z 0)) by (by vm_compute).
  assert (Hp : no_NaN (rule_palindrome text Filters.empty)).
  { unfold rule_palindrome. by destruct (test re_palindrome text). }
  assert (Hw : no_NaN (rule_single_word text (rule_palindrome text Filters.empty))).
  { unfold rule_single_word. destruct (test re_single_word text); [|done].
    destruct Hp as (? & ? & ?). repeat split; try done; simpl; by rewrite H1. }
  set (f1 := rule_single_word text (rule_palindrome text Filters.empty)) in *.
  assert (Hl : no_NaN (rule_longer text f1)).
  { unfold rule_longer. destruct (exec re_longer text) as [ds|]; [|done].
    destruct (isNaN (parseInt ds)) eqn:E; [done|]. apply isNaN_false in E.
    destruct Hw as (? & ? & ?). repeat split; try done; simpl; rewrite H1.
    intros [= Hn]. by apply num_add_not_NaN in Hn. }
  set (f2 := rule_longer text f1) in *.
  assert (Ha : no_NaN (rule_at_least text f2)).
  { unfold rule_at_least. destruct (exec re_at_least text) as [ds|]; [|done].
    destruct (isNaN (parseInt ds)) eqn:E; [done|]. apply isNaN_false in E.
    destruct Hl as (Hmin & ? & ?). repeat split; try done; simpl.
    intros [= Hn]. apply Math_max_not_NaN in Hn; [done| |done].
    destruct (Filters.min_length f2) as [lo|]; simpl; [congruence|by rewrite H0]. }
  set (f3 := rule_at_least text f2) in *.
  assert (Hs : no_NaN (rule_shorter text f3)).
  { unfold rule_shorter. destruct (exec re_shorter text) as [ds|]; [|done].
    destruct (isNaN (parseInt ds)) eqn:E; [done|]. apply isNaN_false in E.
    destruct Ha as (? & ? & ?). repeat split; try done; simpl; rewrite H1.
    intros [= Hn]. by apply num_add_not_NaN in Hn. }
  unfold accumulate. fold f1 f2 f3. unfold rule_contains.
  destruct (find_contains text) as [c|]; [|done].
  destruct (truthy (Some c)); [|done]. by destruct Hs as (? & ? & ?).
Qed.

Lemma parseNaturalLanguage_no_NaN (q : option qsvalue) (filters : FilterSet) :
  parseNaturalLanguage q = inr filters → no_NaN filters.
Proof.
  unfold parseNaturalLanguage. destruct q as [[[|u s]| |]|]; try done.
  unfold check_filters. destruct (_ =? _)%nat; [done|].
  destruct (Filters.conflicting _); [done|]. intros [= <-]. apply accumulate_no_NaN.
Qed.

Lemma validate_no_NaN (q : Query.t) (filters : FilterSet) :
  validate q = inr filters → no_NaN filters.
Proof.
  unfold validate.
  assert (Hnum : ∀ x msg n, numeric_param x msg = inr n → n ≠ NaN).
  { intros x msg n. unfold numeric_param. destruct (isNaN (Number_of x)) eqn:E; [done|].
    intros [= <-]. by apply isNaN_false. }
  destruct (Query.is_palindrome q) as [x|];
    [destruct (bool_decide _ && bool_decide _); [done|]|];
    (destruct (Query.min_length q) as [lo|];
       [destruct (numeric_param lo _) as [|nlo] eqn:Elo; [done|apply Hnum in Elo]|]);
    (destruct (Query.max_length q) as [hi|];
       [destruct (numeric_param hi _) as [|nhi] eqn:Ehi; [done|apply Hnum in Ehi]|]);
    (destruct (Query.word_count q) as [w|];
       [destruct (numeric_param w _) as [|nw] eqn:Ew; [done|apply Hnum in Ew]|]);
    (destruct (Query.contains_character q) as [c|];
       [destruct (bool_decide (length (String_of c) ≠ 1)); [done|]|]);
    simpl; try (destruct (Filters.conflicting _); [done|]);
    intros [= <-]; repeat split; simpl; congruence.
Qed.


(** ** Further properties *)

(** *** Code points *)

Lemma codePoints_shape (s : jsstring) :
  concat (codePoints s) = s ∧
  Forall (λ c, (∃ u, c = [u]) ∨
               (∃ h l, c = [h; l] ∧ isHighSurrogate h = true ∧ isLowSurrogate l = true))
         (codePoints s).
Proof.
  remember (length s) as n eqn:Hn. revert s Hn.
  induction n as [n IH] using lt_wf_ind. intros s Hn.
  destruct s as [|u [|v s]].
  - split; [done|constructor].
  - split; [done|]. constructor; [eauto|constructor].
  - assert (Heq : codePoints (u :: v :: s) =
                  if isHighSurrogate u && isLowSurrogate v
                  then [u; v] :: codePoints s else [u] :: codePoints (v :: s)) by done.
    rewrite Heq. clear Heq.
    destruct (isHighSurrogate u && isLowSurrogate v) eqn:E.
    + apply andb_true_iff in E as [Hu Hv].
      destruct (IH (length s) ltac:(simpl in Hn; lia) s eq_refl) as [Hc Hf].
      split; [cbn [concat]; by rewrite Hc|]. constructor; [|done]. right. eauto.
    + destruct (IH (length (v :: s)) ltac:(simpl in *; lia) (v :: s) eq_refl) as [Hc Hf].
      split; [cbn [concat]; by rewrite Hc|]. constructor; [eauto|done].
Qed.

(** X1. The code points of a string, joined, give the string back; each is
    one code unit or a high surrogate followed by a low one; so the
    code-point length lies between half the number of code units and that
    number. *)
Theorem codePoints_partition (s : jsstring) :
  concat (codePoints s) = s ∧
  (∀ c, c ∈ codePoints s →
        (∃ u, c = [u]) ∨
        (∃ h l, c = [h; l] ∧ isHighSurrogate h = true ∧ isLowSurrogate l = true)) ∧
  charLength s ≤ length s ≤ 2 * charLength s.
Proof.
  destruct (codePoints_shape s) as [Hc Hf].
  split; [done|]. split; [by apply Forall_forall|].
  unfold charLength. rewrite <- Hc at 2 3. clear Hc.
  induction Hf as [|c l Hc Hf IH]; simpl; [lia|].
  rewrite length_app.
  destruct Hc as [[u ->]|(h & lo & -> & _)]; simpl; lia.
Qed.

(** *** Distinct characters and the frequency map *)

(** X2. The number of distinct characters is the number of keys of the
    frequency map; it is at most the code-point length, and at least 1 for
    a string that is not empty. *)
Theorem uniqueCharacters_size_of_frequency_map (s : jsstring) :
  uniqueCharacters s = size (charFrequencyMap s) ∧
  uniqueCharacters s ≤ charLength s ∧
  (s ≠ [] → 1 ≤ uniqueCharacters s).
Proof. forget_host.
  assert (Hdom : dom (charFrequencyMap s) = list_to_set (codePoints s)).
  { apply set_eq. intros c. rewrite elem_of_dom, elem_of_list_to_set.
    rewrite charFrequencyMap_lookup.
    destruct (decide (c ∈ codePoints s)); split; eauto; [by intros [? ?]|done]. }
  split; [|split].
  - unfold uniqueCharacters. by rewrite <- Hdom, size_dom.
  - apply size_list_to_set_le.
  - intros Hs. unfold uniqueCharacters.
    destruct (codePoints s) as [|c l] eqn:E.
    { destruct s as [|u [|v s']]; [done|done|]. simpl in E.
      by destruct (isHighSurrogate u && isLowSurrogate v). }
    rewrite list_to_set_cons.
    assert (size ({[c]} : gset jsstring) ≤ size ({[c]} ∪ list_to_set l : gset jsstring))
      by (apply subseteq_size; set_solver).
    rewrite size_singleton in *. lia.
Qed.

(** *** wordCount *)

Lemma split_whitespace_count (cur : jsstring) (insep : bool) (s : jsstring) :
  (insep = true → cur = []) →
  length (filter (λ t, t ≠ []) (split_whitespace cur insep s)) =
  (if bool_decide (cur = []) then 0 else 1) + word_starts (bool_decide (cur = [])) s.
Proof.
  revert cur insep. induction s as [|u s IH]; intros cur insep Hinv.
  - simpl. destruct cur as [|c cur]; [done|]. rewrite filter_cons, decide_True; [done|].
    intros Hr. apply (f_equal length) in Hr. rewrite length_reverse in Hr. done.
  - cbn [split_whitespace word_starts]. destruct (isWhiteSpace u).
    + destruct insep.
      * rewrite (Hinv eq_refl). by apply (IH [] true).
      * rewrite filter_cons. pose proof (IH [] true ltac:(done)) as IH'.
        destruct cur as [|c cur]; [by rewrite decide_False by (by intros ?)|].
        rewrite decide_True; [simpl; by rewrite IH'|].
        intros Hr. apply (f_equal length) in Hr. rewrite length_reverse in Hr. done.
    + pose proof (IH (u :: cur) false ltac:(done)) as IH'.
      rewrite (bool_decide_eq_false_2 (u :: cur = [])) in IH' by done.
      rewrite IH'. by destruct cur.
Qed.

Lemma trimStart_prefix (s : jsstring) :
  ∃ w, forallb isWhiteSpace w = true ∧ s = w ++ trimStart s ∧
       from_option isWhiteSpace false (head (trimStart s)) = false.
Proof.
  induction s as [|u s (w & Hw & Hs & Hh)]; [by exists []|].
  simpl. destruct (isWhiteSpace u) eqn:E.
  - exists (u :: w). simpl. rewrite E, Hw. split; [done|]. split; [by f_equal|done].
  - exists []. simpl. by rewrite E.
Qed.

Lemma trim_suffix (s : jsstring) :
  ∃ w, forallb isWhiteSpace w = true ∧ trimStart s = trim s ++ w.
Proof.
  unfold trim. destruct (trimStart_prefix (reverse (trimStart s))) as (w & Hw & Hs & _).
  exists (reverse w). split.
  - rewrite forallb_forall in *. intros x Hx. apply Hw.
    apply list_elem_of_In, elem_of_reverse, list_elem_of_In. done.
  - rewrite <- reverse_app, <- Hs. by rewrite reverse_involutive.
Qed.

Lemma word_starts_trimStart (s : jsstring) :
  word_starts true (trimStart s) = word_starts true s.
Proof. induction s as [|u s IH]; [done|]. simpl. by destruct (isWhiteSpace u) eqn:E; simpl; rewrite ?E. Qed.

Lemma word_starts_app_space (p : bool) (a w : jsstring) :
  forallb isWhiteSpace w = true → word_starts p (a ++ w) = word_starts p a.
Proof.
  intros Hw. revert p. induction a as [|u a IH]; intros p; simpl.
  - revert p. induction w as [|x w IHw]; intros p; [done|]. simpl in *.
    apply andb_true_iff in Hw as [-> Hw]. by apply IHw.
  - destruct (isWhiteSpace u); by rewrite IH.
Qed.

Lemma word_starts_app (p : bool) (a b : jsstring) (w : N) :
  isWhiteSpace w = true →
  word_starts p (a ++ w :: b) = word_starts p a + word_starts true b.
Proof.
  intros Hw. revert p. induction a as [|u a IH]; intros p; simpl.
  - by rewrite Hw.
  - destruct (isWhiteSpace u); rewrite IH; lia.
Qed.

Lemma wordCount_word_starts (s : jsstring) : wordCount s = word_starts true s.
Proof.
  unfold wordCount. destruct s as [|u s]; [done|].
  set (tokens := split_whitespace [] false (trim (u :: s))).
  transitivity (length (filter (λ t, t ≠ []) tokens)).
  { by destruct tokens as [|[|] [|]]. }
  unfold tokens. rewrite split_whitespace_count by done.
  change (word_starts true (trim (u :: s)) = word_starts true (u :: s)).
  destruct (trim_suffix (u :: s)) as (w & Hw & Hs).
  rewrite <- (word_starts_trimStart (u :: s)), Hs. by rewrite word_starts_app_space.
Qed.

Lemma word_starts_zero (s : jsstring) :
  word_starts true s = 0 ↔ forallb isWhiteSpace s = true.
Proof.
  induction s as [|u s IH]; [done|]. simpl. destruct (isWhiteSpace u); [done|].
  simpl. split; [lia|done].
Qed.

(** X3. [wordCount] is the number of words, a word beginning at each code
    unit that is not white space and stands first or after white space;
    it is 0 exactly for the strings made of white space only, the empty
    one among them. *)
Theorem wordCount_counts_words (s : jsstring) :
  wordCount s = word_starts true s ∧
  (wordCount s = 0 ↔ forallb isWhiteSpace s = true).
Proof.
  split; [apply wordCount_word_starts|].
  rewrite wordCount_word_starts. apply word_starts_zero.
Qed.

(** X4. White space only separates: the words of two strings joined by a
    white-space code unit are those of the one and those of the other, and
    white space put before or after a string does not change its count; a
    non-empty string without white space is one word. *)
Theorem wordCount_separator (a b : jsstring) (w : N) :
  isWhiteSpace w = true →
  wordCount (a ++ w :: b) = wordCount a + wordCount b ∧
  wordCount (w :: a) = wordCount a ∧
  wordCount (a ++ [w]) = wordCount a ∧
  (a ≠ [] → forallb (λ u, negb (isWhiteSpace u)) a = true → wordCount a = 1).
Proof.
  intros Hw. rewrite !wordCount_word_starts. split; [by apply word_starts_app|].
  split; [simpl; by rewrite Hw|]. split.
  - rewrite word_starts_app_space; [done|]. simpl. by rewrite Hw.
  - intros Ha Hall. destruct a as [|u a]; [done|]. simpl in *.
    apply andb_true_iff in Hall as [Hu Ha']. apply negb_true_iff in Hu. rewrite Hu.
    clear Ha Hu. f_equal. induction a as [|x a IH]; [done|]. simpl in *.
    apply andb_true_iff in Ha' as [Hx Ha']. apply negb_true_iff in Hx. rewrite Hx.
    by apply IH.
Qed.

(** *** isPalindrome on ASCII strings *)

Lemma codePoints_ascii (s : jsstring) :
  forallb isAscii s = true → codePoints s = (λ u, [u]) <$> s.
Proof.
  induction s as [|u s IH]; [done|]. intros [Hu Hs]%andb_true_iff.
  specialize (IH Hs). destruct s as [|v s]; [done|].
  assert (Heq : codePoints (u :: v :: s) =
                if isHighSurrogate u && isLowSurrogate v
                then [u; v] :: codePoints s else [u] :: codePoints (v :: s)) by done.
  rewrite Heq, IH.
  replace (isHighSurrogate u) with false; [done|].
  unfold isAscii in Hu. apply N.ltb_lt in Hu. unfold isHighSurrogate.
  symmetry. apply andb_false_iff. left. apply N.leb_gt. lia.
Qed.

Lemma isPalindrome_true_reverse (s : jsstring) :
  isPalindrome s = true ↔
  codePoints (toLowerCase s) = reverse (codePoints (toLowerCase s)).
Proof.
  unfold isPalindrome. set (arr := codePoints (toLowerCase s)).
  rewrite isPalindrome_loop_true, symmetric_pairs_reverse. split.
  - intros H k Hk. specialize (H (Z.of_nat k)).
    replace (Z.to_nat (0 + Z.of_nat k)) with k in H by lia.
    replace (Z.to_nat (Z.of_nat (length arr) - 1 - Z.of_nat k))
      with (length arr - 1 - k) in H by lia.
    apply H; lia.
  - intros H k Hk Hkl. specialize (H (Z.to_nat k)).
    replace (Z.to_nat (0 + k)) with (Z.to_nat k) by lia.
    replace (Z.to_nat (Z.of_nat (length arr) - 1 - k))
      with (length arr - 1 - Z.to_nat k) by lia.
    apply H; lia.
Qed.

Lemma asciiLower_ascii (s : jsstring) :
  forallb isAscii s = true → forallb isAscii (asciiLower <$> s) = true.
Proof.
  induction s as [|u s IH]; [done|]. intros [Hu Hs]%andb_true_iff.
  rewrite fmap_cons. cbn [forallb]. apply andb_true_iff. split; [|by apply IH].
  unfold isAscii, asciiLower in *. apply N.ltb_lt in Hu.
  destruct (_ && _) eqn:E; apply N.ltb_lt; [|done].
  apply andb_true_iff in E as [_ E]. apply N.leb_le in E. lia.
Qed.

(** X5. On ASCII strings [isPalindrome] tells whether the string, its
    letters lowered, reads the same backwards code unit by code unit; so
    two ASCII strings that differ in the case of letters only get the same
    answer. *)
Theorem isPalindrome_ascii_ignores_case (s : jsstring) :
  forallb isAscii s = true →
  (isPalindrome s = true ↔ asciiLower <$> s = reverse (asciiLower <$> s)) ∧
  (∀ t, forallb isAscii t = true → asciiLower <$> s = asciiLower <$> t →
        isPalindrome s = isPalindrome t).
Proof using toLowerCase_ascii. clear decodeURIComponent_incomplete_escape decodeURIComponent sha256Hex.
  assert (Hiff : ∀ x, forallb isAscii x = true →
            (isPalindrome x = true ↔ asciiLower <$> x = reverse (asciiLower <$> x))).
  { intros x Hx. rewrite isPalindrome_true_reverse, toLowerCase_ascii by done.
    rewrite codePoints_ascii by (by apply asciiLower_ascii).
    rewrite <- fmap_reverse. split; [|by intros <-].
    intros H. eapply (inj (fmap (λ u : N, [u]))). exact H. }
  intros Hs. split; [by apply Hiff|].
  intros t Ht Heq. pose proof (Hiff s Hs) as H1. pose proof (Hiff t Ht) as H2.
  rewrite Heq in H1. rewrite <- H2 in H1.
  destruct (isPalindrome s), (isPalindrome t); try done; intuition congruence.
Qed.

(** *** The rules for is_palindrome and word_count *)

Lemma whole_word_matcher (l : jsstring) (prev : option N) (s : jsstring) :
  from_option isWordChar false (head l) = true →
  from_option isWordChar false (last l) = true →
  is_Some (boundary (lit l (boundary accept)) prev s) ↔
  ∃ rest, s = l ++ rest ∧ from_option isWordChar false prev = false ∧
          from_option isWordChar false (head rest) = false.
Proof.
  intros Hfirst Hlast.
  assert (Hhead : ∀ rest, head (l ++ rest) = head l) by (intros; by destruct l).
  assert (Hbefore : from_option isWordChar false (before prev l) = true).
  { unfold before. by destruct (last l). }
  unfold boundary at 1. split.
  - destruct (xorb _ _) eqn:Ex; [|by intros [? ?]].
    intros [c (rest & -> & Hb)%lit_Some]. exists rest. rewrite Hhead, Hfirst in Ex.
    unfold boundary in Hb. rewrite Hbefore in Hb.
    split; [done|]. split.
    + by destruct (from_option isWordChar false prev).
    + by destruct (from_option isWordChar false (head rest)).
  - intros (rest & -> & Hp & Hn). rewrite Hhead, Hfirst, Hp. simpl.
    exists []. apply lit_Some. exists rest. split; [done|].
    unfold boundary. by rewrite Hbefore, Hn.
Qed.

Lemma test_two_whole_words (l1 l2 text : jsstring) :
  from_option isWordChar false (head l1) = true →
  from_option isWordChar false (last l1) = true →
  from_option isWordChar false (head l2) = true →
  from_option isWordChar false (last l2) = true →
  test (alt (boundary (lit l1 (boundary accept))) (boundary (lit l2 (boundary accept)))) text
  = true ↔ whole_word_in l1 text ∨ whole_word_in l2 text.
Proof.
  intros H1 H1' H2 H2'.
  set (m1 := boundary (lit l1 (boundary accept))).
  set (m2 := boundary (lit l2 (boundary accept))).
  assert (Hlast : ∀ pre, before None pre = last pre).
  { intros pre. unfold before. by destruct (last pre). }
  unfold test. rewrite bool_decide_eq_true. split.
  - intros [c (pre & post & -> & Hm)%search_Some]. unfold alt in Hm.
    destruct (m1 (before None pre) post) as [c1|] eqn:E1.
    + left. destruct (proj1 (whole_word_matcher l1 _ post H1 H1') (mk_is_Some _ _ E1))
        as (rest & -> & Hp & Hn).
      exists pre, rest. by rewrite <- Hlast.
    + right. destruct (proj1 (whole_word_matcher l2 _ post H2 H2') (mk_is_Some _ _ Hm))
        as (rest & -> & Hp & Hn).
      exists pre, rest. by rewrite <- Hlast.
  - intros [(pre & post & -> & Hp & Hn)|(pre & post & -> & Hp & Hn)];
      apply search_is_Some; unfold alt.
    + destruct (proj2 (whole_word_matcher l1 (before None pre) (l1 ++ post) H1 H1'))
        as [c Hc]; [exists post; by rewrite Hlast|].
      fold m1 in Hc. rewrite Hc. eauto.
    + destruct (m1 (before None pre) (l2 ++ post)); [eauto|].
      apply (whole_word_matcher l2 _ _ H2 H2'). exists post. by rewrite Hlast.
Qed.

Lemma first_fields_accumulate (text : jsstring) :
  Filters.is_palindrome (accumulate text) =
    Filters.is_palindrome (rule_palindrome text Filters.empty) ∧
  Filters.word_count (accumulate text) =
    Filters.word_count (rule_single_word text Filters.empty).
Proof.
  unfold accumulate, rule_contains, rule_shorter, rule_at_least, rule_longer,
    rule_single_word, rule_palindrome.
  split;
    repeat (match goal with |- context [match ?x with _ => _ end] => destruct x end;
            simpl; try done).
Qed.

(** X6. The parser sets [is_palindrome], to true, exactly when the text
    holds "palindromic" or "palindrome" as a whole word, and [word_count],
    to 1, exactly when it holds "single word" or "one word" as a whole
    phrase; it never sets [is_palindrome] to false nor [word_count] to
    another number. *)
Theorem whole_word_rules (text : jsstring) :
  (Filters.is_palindrome (accumulate text) = Some true ↔
   whole_word_in (js "palindromic") text ∨ whole_word_in (js "palindrome") text) ∧
  (Filters.is_palindrome (accumulate text) = None ∨
   Filters.is_palindrome (accumulate text) = Some true) ∧
  (Filters.word_count (accumulate text) = Some (Finite (inject_Z 1)) ↔
   whole_word_in (js "single word") text ∨ whole_word_in (js "one word") text) ∧
  (Filters.word_count (accumulate text) = None ∨
   Filters.word_count (accumulate text) = Some (Finite (inject_Z 1))).
Proof.
  destruct (first_fields_accumulate text) as [-> ->].
  pose proof (test_two_whole_words (js "palindromic") (js "palindrome") text
                eq_refl eq_refl eq_refl eq_refl) as Hp.
  pose proof (test_two_whole_words (js "single word") (js "one word") text
                eq_refl eq_refl eq_refl eq_refl) as Hw.
  fold re_palindrome in Hp. fold re_single_word in Hw.
  assert (H1 : num_of_Z 1 = Finite (inject_Z 1)) by (by vm_compute).
  unfold rule_palindrome, rule_single_word. rewrite <- Hp, <- Hw.
  destruct (test re_palindrome text), (test re_single_word text); simpl; rewrite ?H1;
    repeat split; auto; done.
Qed.

(** *** The rule for max_length, and what the parser returns *)

Lemma max_length_accumulate (text : jsstring) :
  Filters.max_length (accumulate text) =
  Filters.max_length (rule_shorter text Filters.empty).
Proof.
  unfold accumulate, rule_contains, rule_shorter, rule_at_least, rule_longer,
    rule_single_word, rule_palindrome.
  repeat (match goal with |- context [match ?x with _ => _ end] => destruct x end;
          simpl; try done).
Qed.

Lemma inject_Z_minus_eq (a b : Z) : (inject_Z a + - inject_Z b)%Q = inject_Z (a - b).
Proof. unfold Qplus, Qopp, inject_Z. simpl. f_equal. lia. Qed.

(** X7. When the text matches "shorter than N", N at most 2^53, the parser
    sets [max_length] to N - 1, which is -1 for N = 0; no other rule sets
    [max_length]. *)
Theorem shorter_than_rule (text : jsstring) :
  (∀ N, matched_number re_shorter text = Some N → (N ≤ 2 ^ 53)%Z) →
  Filters.max_length (accumulate text) =
  match matched_number re_shorter text with
  | Some N => Some (Finite (inject_Z (N - 1)))
  | None => None
  end.
Proof.
  intros Hsafe. rewrite max_length_accumulate. unfold rule_shorter.
  destruct (matched_number re_shorter text) as [N|] eqn:E.
  - specialize (Hsafe N eq_refl).
    apply matched_number_Some in E as (ds & Hex & Hp & HN).
    fold re_shorter in Hex. rewrite Hex, Hp.
    unfold num_of_Z. rewrite (binary64_integer N), (binary64_integer 1) by lia.
    cbn [isNaN negb Filters.max_length Filters.set_max_length num_sub num_opp num_add].
    rewrite inject_Z_minus_eq, binary64_integer by lia. done.
  - apply matched_number_None in E. fold re_shorter in E. by rewrite E.
Qed.

Lemma isLowerAlnum_word (u : N) : isLowerAlnum u = true → isWordChar u = true.
Proof.
  unfold isLowerAlnum, isWordChar.
  destruct (isDigit u), ((97 <=? u)%N && (u <=? 122)%N); simpl; done.
Qed.

Lemma find_contains_one_unit (text c : jsstring) :
  find_contains text = Some c → ∃ u, c = [u] ∧ isWordChar u = true.
Proof.
  rewrite find_contains_first_match.
  destruct (exec re_letter text) as [c1|] eqn:Ea.
  { apply exec_lit_group1 in Ea as (? & x & ? & _ & Hx & ->). intros [= <-]. eauto. }
  destruct (exec re_containing text) as [c2|] eqn:Eb.
  { apply exec_lit_group1 in Eb as (? & x & ? & _ & Hx & ->). intros [= <-].
    eauto using isLowerAlnum_word. }
  destruct (exec re_quoted text) as [c3|] eqn:Ec.
  { apply exec_re_quoted in Ec as (? & ? & x & ? & ? & _ & _ & Hx & _ & ->).
    intros [= <-]. eauto using isLowerAlnum_word. }
  destruct (test re_first_vowel text); [|done]. intros [= <-]. by exists 97%N.
Qed.

Lemma whole_word_rules_helper (text : jsstring) :
  (Filters.is_palindrome (accumulate text) = None ∨
   Filters.is_palindrome (accumulate text) = Some true) ∧
  (Filters.word_count (accumulate text) = None ∨
   Filters.word_count (accumulate text) = Some (Finite (inject_Z 1))).
Proof.
  destruct (first_fields_accumulate text) as [-> ->].
  assert (H1 : num_of_Z 1 = Finite (inject_Z 1)) by (by vm_compute).
  unfold rule_palindrome, rule_single_word.
  destruct (test re_palindrome text), (test re_single_word text); simpl; rewrite ?H1; auto.
Qed.


(** X8. Filters returned by the parser have at least one field, bounds
    that do not cross, no NaN, [is_palindrome] true when present,
    [word_count] 1 when present, and for [contains_character] a single
    word character. *)
Theorem parseNaturalLanguage_returns (q : option qsvalue) (filters : FilterSet) :
  parseNaturalLanguage q = inr filters →
  1 ≤ Filters.keys filters ∧
  (∀ lo hi, Filters.min_length filters = Some lo → Filters.max_length filters = Some hi →
            num_le lo hi) ∧
  no_NaN filters ∧
  Filters.is_palindrome filters ≠ Some false ∧
  (∀ n, Filters.word_count filters = Some n → n = Finite (inject_Z 1)) ∧
  (∀ c, Filters.contains_character filters = Some c →
        ∃ u, c = [u] ∧ isWordChar u = true).
Proof.
  intros Hq. pose proof (parseNaturalLanguage_no_NaN q filters Hq) as Hnan.
  unfold parseNaturalLanguage in Hq. destruct q as [[[|u s]| |]|]; try done.
  set (text := trim (toLowerCase (u :: s))) in *.
  unfold check_filters in Hq.
  destruct (Filters.keys (accumulate text) =? 0) eqn:Ek; [done|].
  destruct (Filters.conflicting (accumulate text)) eqn:Ec; [done|].
  injection Hq as <-. apply Nat.eqb_neq in Ek.
  destruct (whole_word_rules_helper text) as (Hp & Hw).
  split; [lia|]. split; [|split; [done|split; [|split]]].
  - intros lo hi Hlo Hhi. unfold Filters.conflicting in Ec. rewrite Hlo, Hhi in Ec.
    destruct Hnan as (Hn1 & Hn2 & _).
    apply (num_ltb_false_le hi lo); [intros ->; congruence|intros ->; congruence|done].
  - destruct Hp as [-> | ->]; done.
  - intros n Hn. destruct Hw as [Hw|Hw]; congruence.
  - intros c Hc. unfold accumulate, rule_contains in Hc.
    pose proof (contains_character_before text) as Hb.
    destruct (find_contains text) as [c'|] eqn:E; [|congruence].
    rewrite (find_contains_truthy _ _ E) in Hc. simpl in Hc.
    injection Hc as <-. by apply (find_contains_one_unit text).
Qed.

(** *** Numeric parameters of GET /strings *)

Lemma isDigit_not_space (u : N) : isDigit u = true → isWhiteSpace u = false.
Proof. forget_host.
  intros Hd%isDigit_cases.
  repeat (apply elem_of_cons in Hd as [->|Hd]; [done|]). by apply elem_of_nil in Hd.
Qed.

Lemma trim_unchanged (s : jsstring) :
  from_option isWhiteSpace false (head s) = false →
  from_option isWhiteSpace false (last s) = false →
  trim s = s.
Proof.
  assert (Hts : ∀ l, from_option isWhiteSpace false (head l) = false → trimStart l = l).
  { intros [|u l]; [done|]. simpl. by intros ->. }
  intros Hh Hl. unfold trim. rewrite (Hts s Hh).
  rewrite Hts; [by rewrite reverse_involutive|]. by rewrite head_reverse.
Qed.

Lemma trim_blank (s : jsstring) : forallb isWhiteSpace s = true → trim s = [].
Proof.
  intros Hs. unfold trim. replace (trimStart s) with (@nil N); [done|].
  induction s as [|u s IH]; [done|]. simpl in *.
  apply andb_true_iff in Hs as [-> Hs]. by apply IH.
Qed.

Lemma span_all (p : N → bool) (s : jsstring) : forallb p s = true → span p s = (s, []).
Proof.
  induction s as [|u s IH]; [done|]. simpl. intros [-> Hs]%andb_true_iff.
  by rewrite IH.
Qed.

Lemma unsignedDecimal_digits (ds : jsstring) (n : Z) :
  forallb isDigit ds = true → digitsValue 10 ds = Some n →
  unsignedDecimal ds = Some (inject_Z n).
Proof.
  intros Hds Hn. unfold unsignedDecimal. rewrite span_all by done.
  rewrite app_nil_r, Hn. simpl. by rewrite Z.mul_1_r.
Qed.

(** A run of decimal digits converts to the Number nearest to the integer
    it denotes. *)
Lemma StringToNumber_digits (ds : jsstring) (n : Z) :
  forallb isDigit ds = true → digitsValue 10 ds = Some n →
  StringToNumber ds = num_of_Z n.
Proof. forget_host.
  intros Hds Hn. pose proof (unsignedDecimal_digits ds n Hds Hn) as Hu.
  destruct ds as [|d ds']; [done|].
  assert (Hd : isDigit d = true) by (simpl in Hds; by apply andb_true_iff in Hds as [? _]).
  assert (Hlast : from_option isWhiteSpace false (last (d :: ds')) = false).
  { destruct (last (d :: ds')) as [x|] eqn:El; [|done]. simpl.
    apply isDigit_not_space. rewrite forallb_forall in Hds. apply Hds.
    apply list_elem_of_In. apply last_Some in El as [l' ->]. set_solver. }
  unfold StringToNumber. rewrite trim_unchanged; [|simpl; by apply isDigit_not_space|done].
  assert (Hinf : ∀ t, isDigit d = true → d :: t ≠ js "Infinity").
  { intros t Hd' Heq. vm_compute in Heq. injection Heq as -> _. done. }
  destruct ds' as [|x r].
  - apply isDigit_cases in Hd.
    repeat (apply elem_of_cons in Hd as [->|Hd];
            [cbv beta iota delta [signed];
             rewrite (bool_decide_eq_false_2 _ (Hinf _ eq_refl)), Hu; done|]).
    by apply elem_of_nil in Hd.
  - assert (Hx : isDigit x = true).
    { simpl in Hds. apply andb_true_iff in Hds as [_ Hds].
      by apply andb_true_iff in Hds as [? _]. }
    assert (Hx' : (48 ≤ x ≤ 57)%N).
    { unfold isDigit in Hx. apply andb_true_iff in Hx as [H1 H2].
      apply N.leb_le in H1, H2. lia. }
    apply isDigit_cases in Hd.
    apply elem_of_cons in Hd as [->|Hd].
    { cbv beta iota. rewrite !bool_decide_eq_false_2 by lia. by rewrite Hu. }
    repeat (apply elem_of_cons in Hd as [->|Hd];
            [cbv beta iota delta [signed];
             rewrite (bool_decide_eq_false_2 _ (Hinf _ eq_refl)), Hu; done|]).
    by apply elem_of_nil in Hd.
Qed.

(** X9. A numeric parameter made of decimal digits that denote an integer
    up to 2^53 is read as that integer; with [min_length] and [max_length]
    given so and nothing else, the request is refused when the first
    exceeds the second and otherwise yields exactly these two bounds. *)
Theorem decimal_bounds_validated (lo hi : jsstring) (n m : Z) :
  forallb isDigit lo = true → digitsValue 10 lo = Some n → (n ≤ 2 ^ 53)%Z →
  forallb isDigit hi = true → digitsValue 10 hi = Some m → (m ≤ 2 ^ 53)%Z →
  Number_of (QsString lo) = Finite (inject_Z n) ∧
  Number_of (QsString hi) = Finite (inject_Z m) ∧
  validate (Query.mk None (Some (QsString lo)) (Some (QsString hi)) None None) =
  if (m <? n)%Z
  then inl (Respond 400 (ErrorJson "min_length cannot be greater than max_length"))
  else inr (Filters.mk None (Some (Finite (inject_Z n))) (Some (Finite (inject_Z m)))
              None None).
Proof.
  intros Hlo Hn Hn53 Hhi Hm Hm53.
  assert (Hpos : ∀ ds v, forallb isDigit ds = true → digitsValue 10 ds = Some v → (0 ≤ v)%Z).
  { intros ds v Hds Hv. destruct ds as [|d ds']; [done|].
    destruct (digitsValue_from_digits (d :: ds') 0 Hds) as (v' & Hv' & Hv0); [lia|].
    unfold digitsValue in Hv. congruence. }
  pose proof (Hpos lo n Hlo Hn). pose proof (Hpos hi m Hhi Hm).
  assert (H1 : Number_of (QsString lo) = Finite (inject_Z n)).
  { unfold Number_of. simpl. rewrite (StringToNumber_digits lo n) by done.
    apply binary64_integer. lia. }
  assert (H2 : Number_of (QsString hi) = Finite (inject_Z m)).
  { unfold Number_of. simpl. rewrite (StringToNumber_digits hi m) by done.
    apply binary64_integer. lia. }
  split; [done|]. split; [done|].
  unfold validate, numeric_param. cbn [Query.is_palindrome Query.min_length
    Query.max_length Query.word_count Query.contains_character].
  rewrite H1, H2. cbn. unfold Filters.conflicting, num_gtb, num_ltb. cbn.
  destruct (Qlt_le_dec (inject_Z m) (inject_Z n)) as [Hlt|Hle].
  - rewrite <- Zlt_Qlt in Hlt. by rewrite (proj2 (Z.ltb_lt m n)).
  - rewrite <- Zle_Qle in Hle. by rewrite (proj2 (Z.ltb_ge m n)).
Qed.

(** X10. A numeric parameter that is empty or made of white space only is
    read as 0 and not refused: [GET /strings?min_length=] filters with
    [min_length = 0]. *)
Theorem blank_parameter_is_zero (s : jsstring) :
  forallb isWhiteSpace s = true →
  Number_of (QsString s) = Finite 0 ∧
  validate (Query.mk None (Some (QsString s)) None None None) =
  inr (Filters.set_min_length (Finite 0) Filters.empty).
Proof.
  intros Hs.
  assert (H : Number_of (QsString s) = Finite 0).
  { unfold Number_of, StringToNumber. simpl. by rewrite trim_blank. }
  split; [done|]. unfold validate, numeric_param.
  cbn [Query.is_palindrome Query.min_length Query.max_length Query.word_count
       Query.contains_character].
  rewrite H. done.
Qed.

(** *** What the validation of GET /strings returns *)

(** The filters returned hold the parameters given, converted. *)
Lemma validate_fields (q : Query.t) (filters : FilterSet) :
  validate q = inr filters →
  Filters.is_palindrome filters =
    (λ x, bool_decide (toLowerCase (String_of x) = js "true")) <$> Query.is_palindrome q ∧
  (∀ x, Query.is_palindrome q = Some x →
        toLowerCase (String_of x) = js "true" ∨ toLowerCase (String_of x) = js "false") ∧
  Filters.min_length filters = Number_of <$> Query.min_length q ∧
  Filters.max_length filters = Number_of <$> Query.max_length q ∧
  Filters.word_count filters = Number_of <$> Query.word_count q ∧
  Filters.contains_character filters = String_of <$> Query.contains_character q ∧
  (∀ c, Query.contains_character q = Some c → length (String_of c) = 1) ∧
  Filters.conflicting filters = false.
Proof.
  unfold validate, numeric_param. intros Hv.
  assert (Hpal : ∀ x, Query.is_palindrome q = Some x →
            toLowerCase (String_of x) = js "true" ∨ toLowerCase (String_of x) = js "false").
  { intros x Hx. rewrite Hx in Hv.
    destruct (bool_decide (toLowerCase (String_of x) ≠ js "true") &&
              bool_decide (toLowerCase (String_of x) ≠ js "false")) eqn:E; [done|].
    apply andb_false_iff in E as [E|E]; apply bool_decide_eq_false in E;
      apply dec_stable in E; auto. }
  assert (Hch : ∀ c, Query.contains_character q = Some c → length (String_of c) = 1).
  { intros c Hc. rewrite Hc in Hv.
    destruct (bool_decide (length (String_of c) ≠ 1)) eqn:El.
    - exfalso. revert Hv.
      repeat (match goal with |- context [match ?x with _ => _ end] => destruct x end;
              simpl; try done).
    - apply bool_decide_eq_false in El. by apply dec_stable in El. }
  split; [|split; [done|]]; [|split; [|split; [|split; [|split; [|split; [done|]]]]]];
    revert Hv;
    (destruct (Query.is_palindrome q) as [x|];
       [destruct (bool_decide _ && bool_decide _); [done|]|]);
    (destruct (Query.min_length q) as [lo|];
       [destruct (isNaN (Number_of lo)); [done|]|]);
    (destruct (Query.max_length q) as [hi|];
       [destruct (isNaN (Number_of hi)); [done|]|]);
    (destruct (Query.word_count q) as [w|];
       [destruct (isNaN (Number_of w)); [done|]|]);
    (destruct (Query.contains_character q) as [c|];
       [destruct (bool_decide (length (String_of c) ≠ 1)); [done|]|]);
    simpl; try (destruct (Filters.conflicting _) eqn:Ec; [done|]);
    intros [= <-]; done.
Qed.

(** X11. The validation refuses with status 400 only.  The filters it
    returns have a field exactly for each parameter given, holding the
    parameter converted: bounds that do not cross, no NaN, a
    [contains_character] of one code unit, and an [is_palindrome] that tells
    whether the parameter, lowercased, reads "true" (it reads "false"
    otherwise). *)
Theorem validate_returns (q : Query.t) :
  (∀ refusal, validate q = inl refusal → ∃ msg, refusal = Respond 400 (ErrorJson msg)) ∧
  (∀ filters, validate q = inr filters →
     Filters.is_palindrome filters =
       (λ x, bool_decide (toLowerCase (String_of x) = js "true")) <$> Query.is_palindrome q ∧
     (∀ x, Query.is_palindrome q = Some x →
           toLowerCase (String_of x) = js "true" ∨ toLowerCase (String_of x) = js "false") ∧
     Filters.min_length filters = Number_of <$> Query.min_length q ∧
     Filters.max_length filters = Number_of <$> Query.max_length q ∧
     Filters.word_count filters = Number_of <$> Query.word_count q ∧
     Filters.contains_character filters = String_of <$> Query.contains_character q ∧
     (∀ c, Filters.contains_character filters = Some c → length c = 1) ∧
     (∀ lo hi, Filters.min_length filters = Some lo →
               Filters.max_length filters = Some hi → num_le lo hi) ∧
     no_NaN filters).
Proof.
  split.
  - intros refusal. unfold validate, numeric_param.
    destruct (Query.is_palindrome q) as [x|];
      [destruct (bool_decide _ && bool_decide _); [intros [= <-]; eauto|]|];
      (destruct (Query.min_length q) as [lo|];
         [destruct (isNaN (Number_of lo)); [intros [= <-]; eauto|]|]);
      (destruct (Query.max_length q) as [hi|];
         [destruct (isNaN (Number_of hi)); [intros [= <-]; eauto|]|]);
      (destruct (Query.word_count q) as [w|];
         [destruct (isNaN (Number_of w)); [intros [= <-]; eauto|]|]);
      (destruct (Query.contains_character q) as [c|];
         [destruct (bool_decide (length (String_of c) ≠ 1)); [intros [= <-]; eauto|]|]);
      simpl; try (destruct (Filters.conflicting _)); intros [= <-]; eauto.
  - intros filters Hv. pose proof (validate_no_NaN q filters Hv) as Hnan.
    destruct (validate_fields q filters Hv) as (Hp & Hpv & Hlo & Hhi & Hw & Hc & Hcl & Hx).
    repeat (split; [done|]). split; [|split; [|done]].
    + intros c Hcc. rewrite Hc in Hcc.
      destruct (Query.contains_character q) as [c'|]; [|done].
      injection Hcc as <-. by apply Hcl.
    + intros lo hi Hl Hh. unfold Filters.conflicting in Hx. rewrite Hl, Hh in Hx.
      destruct Hnan as (Hn1 & Hn2 & _).
      apply (num_ltb_false_le hi lo); [intros ->; congruence|intros ->; congruence|done].
Qed.

(** *** The evaluator on integer bounds *)

(** X12. With bounds that are integers and nothing else asked, a record
    whose length is at most 2^53 matches exactly when its length lies
    between the bounds given, ends included. *)
Theorem matches_integer_bounds (r : StringRecord.t) (omin omax : option Z) :
  let len := Z.of_nat (Properties.length (StringRecord.properties r)) in
  (len ≤ 2 ^ 53)%Z →
  matches (Filters.mk None ((λ z, Finite (inject_Z z)) <$> omin)
             ((λ z, Finite (inject_Z z)) <$> omax) None None) r = true ↔
  (∀ lo, omin = Some lo → (lo ≤ len)%Z) ∧ (∀ hi, omax = Some hi → (len ≤ hi)%Z).
Proof.
  intros len Hlen. rewrite matches_conjunction.
  cbn [Filters.is_palindrome Filters.min_length Filters.max_length Filters.word_count
       Filters.contains_character].
  assert (Hn : num_of_nat (Properties.length (StringRecord.properties r)) =
               Finite (inject_Z len)).
  { unfold num_of_nat, num_of_Z. apply binary64_integer. lia. }
  rewrite Hn. unfold num_gtb.
  assert (Hlt : ∀ a b, num_ltb (Finite (inject_Z a)) (Finite (inject_Z b)) = false ↔ (b ≤ a)%Z).
  { intros a b. simpl. destruct (Qlt_le_dec (inject_Z a) (inject_Z b)) as [H|H].
    - rewrite <- Zlt_Qlt in H. split; [done|lia].
    - rewrite <- Zle_Qle in H. done. }
  split.
  - intros (_ & Hlo & Hhi & _ & _). split.
    + intros lo ->. apply Hlt. by apply Hlo.
    + intros hi ->. apply Hlt. by apply Hhi.
  - intros [Hlo Hhi]. repeat split; try done.
    + intros n Hn'. destruct omin as [lo|]; [|done]. injection Hn' as <-.
      apply Hlt. by apply Hlo.
    + intros n Hn'. destruct omax as [hi|]; [|done]. injection Hn' as <-.
      apply Hlt. by apply Hhi.
Qed.

(** *** listRecords *)

#[local] Instance newer_or_same_total : Total newer_or_same.
Proof. intros a b. unfold newer_or_same. lia. Qed.

#[local] Instance newer_or_same_transitive : Transitive newer_or_same.
Proof. intros a b c. unfold newer_or_same. lia. Qed.

Lemma StronglySorted_lookup_lt {A} (R : relation A) (l : list A) :
  StronglySorted R l →
  ∀ i j a b, i < j → l !! i = Some a → l !! j = Some b → R a b.
Proof.
  induction 1 as [|x l Hs IH Hall]; intros i j a b Hij Ha Hb; [done|].
  destruct j as [|j]; [lia|]. simpl in Hb. destruct i as [|i].
  - injection Ha as <-. rewrite Forall_forall in Hall. apply Hall.
    by eapply list_elem_of_lookup_2.
  - simpl in Ha. apply (IH i j); [lia|done..].
Qed.

Lemma elem_of_listRecords (filters : FilterSet) (DB : store) (r : StringRecord.t) :
  r ∈ listRecords filters DB ↔ (∃ id, DB !! id = Some r) ∧ matches filters r = true.
Proof. forget_host.
  unfold listRecords. rewrite merge_sort_Permutation, list_elem_of_filter, list_elem_of_fmap.
  split.
  - intros [Hm ([id r'] & -> & Hin)]. apply elem_of_map_to_list in Hin. eauto.
  - intros [[id Hid] Hm]. split; [done|]. exists (id, r). split; [done|].
    by apply elem_of_map_to_list.
Qed.

(** X13. [listRecords] returns the records of the store that match the
    filters, all of them and no other, and never more records than the
    store holds. *)
Theorem listRecords_exactly_the_matching (filters : FilterSet) (DB : store) :
  (∀ r, r ∈ listRecords filters DB ↔
        (∃ id, DB !! id = Some r) ∧ matches filters r = true) ∧
  length (listRecords filters DB) ≤ size DB.
Proof.
  split; [intros r; apply elem_of_listRecords|].
  unfold listRecords. rewrite merge_sort_Permutation.
  etrans; [apply length_filter|]. by rewrite length_fmap, length_map_to_list.
Qed.

(** X14. [listRecords] returns the records newest first: a record never
    comes before one created later. *)
Theorem listRecords_newest_first (filters : FilterSet) (DB : store) :
  ∀ i j a b, i < j →
    listRecords filters DB !! i = Some a → listRecords filters DB !! j = Some b →
    (StringRecord.created_at b ≤ StringRecord.created_at a)%Z.
Proof.
  apply (StronglySorted_lookup_lt newer_or_same). unfold listRecords.
  apply StronglySorted_merge_sort; apply _.
Qed.

Lemma filter_all {A} (P : A → Prop) `{∀ x, Decision (P x)} (l : list A) :
  (∀ x, P x) → filter P l = l.
Proof.
  intros HP. induction l as [|x l IH]; [done|].
  rewrite filter_cons, decide_True by done. by rewrite IH.
Qed.

(** X15. [GET /strings] without parameters answers 200 with the whole
    store: the count is the size of the store and the data are its
    records. *)
Theorem get_strings_lists_everything (DB : store) :
  get_strings (Query.mk None None None None None) DB =
    Respond 200 (ListJson (listRecords Filters.empty DB) (size DB) Filters.empty) ∧
  (∀ r, r ∈ listRecords Filters.empty DB ↔ ∃ id, DB !! id = Some r).
Proof.
  assert (Hlen : length (listRecords Filters.empty DB) = size DB).
  { unfold listRecords. rewrite merge_sort_Permutation, filter_all by done.
    by rewrite length_fmap, length_map_to_list. }
  split.
  - unfold get_strings. simpl. by rewrite Hlen.
  - intros r. rewrite elem_of_listRecords. split; [by intros [? _]|]. by intros ?.
Qed.

(** *** What the writing routes do to the store *)

(** X16. [POST /strings] never removes nor changes a stored record.  Its
    answer is 201, 400, 409, 422 or 500; on 400, 409 and 422 the store is
    as before, and on 201 it holds one record more, the new one, under the
    digest of the string. *)
Theorem post_strings_only_adds (now : Z) (disk : bool) (body : post_body) (DB : store) :
  let DB' := (post_strings now disk body DB).1 in
  let answer := (post_strings now disk body DB).2 in
  (∀ id r, DB !! id = Some r → DB' !! id = Some r) ∧
  (∃ code b, answer = Respond code b ∧ code ∈ [201; 400; 409; 422; 500]) ∧
  (∀ code b, answer = Respond code b → code ∈ [400; 409; 422] → DB' = DB) ∧
  (∀ b, answer = Respond 201 b →
        ∃ s, body = ValueString s ∧ DB !! sha256Hex s = None ∧
             b = RecordJson (StringRecord.mk (sha256Hex s) s (analyzeString s) now) ∧
             DB' !! sha256Hex s =
               Some (StringRecord.mk (sha256Hex s) s (analyzeString s) now) ∧
             size DB' = S (size DB)).
Proof.
  intros DB' answer. unfold DB', answer. clear DB' answer.
  assert (Hin : ∀ code : nat, In code [201; 400; 409; 422; 500] →
                              code ∈ [201; 400; 409; 422; 500])
    by (intros code Hc; by apply list_elem_of_In).
  assert (Hout : ∀ code : nat, code ∈ [400; 409; 422] → code ≠ 201 ∧ code ≠ 500).
  { intros code Hc. apply list_elem_of_In in Hc. simpl in Hc. lia. }
  destruct body as [| |s].
  - cbn [post_strings fst snd]. split; [done|]. split; [|split; [done|done]].
    eexists _, _. split; [done|]. apply Hin. simpl. auto.
  - cbn [post_strings fst snd]. split; [done|]. split; [|split; [done|done]].
    eexists _, _. split; [done|]. apply Hin. simpl. auto.
  - rewrite post_strings_string.
    destruct (DB !! sha256Hex s) as [old|] eqn:E.
    { cbn [fst snd]. split; [done|]. split; [|split; [done|done]].
      eexists _, _. split; [done|]. apply Hin. simpl. auto. }
    destruct (sha256Hex s) as [|h hs] eqn:Eh.
    { cbn [fst snd]. split; [done|]. split; [|split; [done|done]].
      eexists _, _. split; [done|]. apply Hin. simpl. auto 6. }
    cbn [fst snd]. split; [|split; [|split]].
    + intros id r Hid. rewrite lookup_insert_ne; [done|]. intros <-. congruence.
    + destruct disk; eexists _, _; (split; [done|]); apply Hin; simpl; auto 6.
    + intros code b Hcode Hc. apply Hout in Hc as [H201 H500].
      destruct disk; injection Hcode as <- <-; done.
    + intros b Hb. destruct disk; [|done]. injection Hb as <-.
      exists s. rewrite Eh. split; [done|]. split; [done|]. split; [done|].
      split; [by rewrite lookup_insert_eq|]. by apply map_size_insert_None.
Qed.

(** X17. When the record is new but the write to the data file fails,
    [POST /strings] answers 500 and yet keeps the record in memory:
    [getById] finds it under the digest of the string, [GET /strings]
    without parameters lists it, [GET /strings/:string_value] answers 200
    with it for every parameter that [decodeURIComponent] takes to the
    string, and a second [POST] of the string answers 409. *)
Theorem post_strings_failed_write_keeps_record
    (now now' : Z) (disk' : bool) (s : jsstring) (DB : store) :
  sha256Hex s ≠ [] → DB !! sha256Hex s = None →
  let DB' := (post_strings now false (ValueString s) DB).1 in
  let record := StringRecord.mk (sha256Hex s) s (analyzeString s) now in
  (post_strings now false (ValueString s) DB).2 = Respond 500 (ErrorJson "Server error") ∧
  getById (sha256Hex s) DB' = Some record ∧
  (∃ data count,
     get_strings (Query.mk None None None None None) DB' =
       Respond 200 (ListJson data count Filters.empty) ∧
     record ∈ data) ∧
  (∀ raw, decodeURIComponent raw = Some s →
          get_string raw DB' = Respond 200 (RecordJson record)) ∧
  AlreadyExists (post_strings now' disk' (ValueString s) DB').2.
Proof.
  intros Hid Hfresh DB' record.
  assert (Hpost : post_strings now false (ValueString s) DB =
                  (<[sha256Hex s := record]> DB, Respond 500 (ErrorJson "Server error"))).
  { rewrite post_strings_string, Hfresh. unfold record.
    by destruct (sha256Hex s). }
  unfold DB'. clear DB'. rewrite Hpost. cbn [fst snd].
  assert (Hstored : <[sha256Hex s := record]> DB !! sha256Hex s = Some record)
    by apply lookup_insert_eq.
  split; [done|]. split; [done|]. split; [|split].
  - eexists _, _. split; [by unfold get_strings|].
    apply elem_of_listRecords. split; [by exists (sha256Hex s)|done].
  - intros raw Hraw. unfold get_string, getById. by rewrite Hraw, Hstored.
  - rewrite post_strings_string, Hstored. by eexists.
Qed.

(** X18. [DELETE] by a parameter that decodes leaves the string not
    stored, whatever it answers, and leaves every other record as it was.
    It answers 404 exactly when the string was not stored, and then the
    store is unchanged; when the string was stored it answers 204 if the
    write to the data file succeeds and 400 if it fails, the record being
    removed from memory in both cases. *)
Theorem delete_string_effect (disk : bool) (raw decoded : jsstring) (DB : store) :
  decodeURIComponent raw = Some decoded →
  let DB' := (delete_string disk raw DB).1 in
  let answer := (delete_string disk raw DB).2 in
  DB' = delete (sha256Hex decoded) DB ∧
  DB' !! sha256Hex decoded = None ∧
  (∀ id, id ≠ sha256Hex decoded → DB' !! id = DB !! id) ∧
  (NotFound answer ↔ DB !! sha256Hex decoded = None) ∧
  (DB !! sha256Hex decoded = None → DB' = DB) ∧
  (is_Some (DB !! sha256Hex decoded) →
   answer = (if disk then Respond 204 NoContent
             else Respond 400 (ErrorJson "Invalid URL-encoded string")) ∧
   S (size DB') = size DB).
Proof.
  intros Hraw DB' answer. unfold DB', answer. clear DB' answer.
  unfold delete_string, deleteById. rewrite Hraw.
  destruct (DB !! sha256Hex decoded) as [r|] eqn:E.
  - assert (Hd : (let '(DB', res) :=
                    (delete (sha256Hex decoded) DB,
                     match saveDb disk with inl e => inl e | inr _ => inr true end)
                  in match res with
                     | inr true => (DB', Respond 204 NoContent)
                     | inr false =>
                         (DB', Respond 404 (ErrorJson "String does not exist in the system"))
                     | inl _ => (DB', Respond 400 (ErrorJson "Invalid URL-encoded string"))
                     end) =
                 (delete (sha256Hex decoded) DB,
                  if disk then Respond 204 NoContent
                  else Respond 400 (ErrorJson "Invalid URL-encoded string")))
      by (by destruct disk).
    simpl in Hd. rewrite Hd. cbn [fst snd].
    split; [done|]. split; [apply lookup_delete_eq|].
    split; [intros id Hne; by apply lookup_delete_ne|].
    split; [|split; [done|]].
    + split; [|done]. intros [b Hb]. by destruct disk.
    + intros _. split; [done|]. rewrite map_size_delete, E. simpl.
      assert (size DB ≠ 0); [|lia]. intros Hz. apply map_size_empty_inv in Hz.
      subst. by rewrite lookup_empty in E.
  - cbn [fst snd]. split; [by rewrite delete_id|]. split; [done|].
    split; [done|]. split; [split; [done|by eexists]|]. split; [done|].
    by intros [? ?].
Qed.

(** X19. [POST /strings] answered 201, then [DELETE
    /strings/:string_value].  When [decodeURIComponent] takes the parameter
    of the deletion to the stored string, the store is again as it was
    before the [POST], a new [POST] of the string answers 201 with a record
    that carries the new creation time, and a second [DELETE] answers 404.
    When the parameter does not decode, or decodes to a string of another
    digest, the record stays stored and the new [POST] answers 409; a
    parameter that does not decode is answered 400 and changes nothing. *)
Theorem delete_then_insert_again
    (DB DB1 : store) (s raw : jsstring) (now now' : Z) (disk disk' : bool)
    (r : StringRecord.t) :
  post_strings now disk (ValueString s) DB = (DB1, Respond 201 (RecordJson r)) →
  let DB2 := (delete_string disk' raw DB1).1 in
  let again := (post_strings now' true (ValueString s) DB2).2 in
  (decodeURIComponent raw = Some s →
   DB2 = DB ∧
   again = Respond 201
             (RecordJson (StringRecord.mk (sha256Hex s) s (analyzeString s) now')) ∧
   NotFound (delete_string disk' raw DB2).2) ∧
  ((∀ d, decodeURIComponent raw = Some d → sha256Hex d ≠ sha256Hex s) →
   DB2 !! sha256Hex s = Some r ∧ AlreadyExists again) ∧
  (decodeURIComponent raw = None →
   delete_string disk' raw DB1 =
     (DB1, Respond 400 (ErrorJson "Invalid URL-encoded string"))).
Proof.
  intros Hpost DB2 again. unfold again, DB2. clear again DB2.
  pose proof Hpost as (Hr & Hfresh & ->)%post_strings_created.
  assert (Hid : sha256Hex s ≠ []).
  { rewrite post_strings_string, Hfresh in Hpost. by destruct (sha256Hex s). }
  split; [|split].
  - intros Hraw.
    assert (Hdel : (delete_string disk' raw (<[sha256Hex s := r]> DB)).1 = DB).
    { unfold delete_string, deleteById. rewrite Hraw, lookup_insert_eq.
      destruct disk'; simpl; by rewrite delete_insert_id. }
    rewrite Hdel. split; [done|]. split.
    + rewrite post_strings_string, Hfresh. by destruct (sha256Hex s).
    + unfold delete_string, deleteById. rewrite Hraw, Hfresh. by eexists.
  - intros Hother.
    assert (Hkept : (delete_string disk' raw (<[sha256Hex s := r]> DB)).1
                      !! sha256Hex s = Some r).
    { unfold delete_string, deleteById.
      destruct (decodeURIComponent raw) as [d|] eqn:Hraw;
        [|cbn [fst]; apply lookup_insert_eq].
      specialize (Hother d eq_refl).
      destruct (<[sha256Hex s := r]> DB !! sha256Hex d) eqn:E;
        [|cbn [fst]; apply lookup_insert_eq].
      assert (Hd : delete (sha256Hex d) (<[sha256Hex s := r]> DB) !! sha256Hex s = Some r).
      { rewrite lookup_delete_ne by done. apply lookup_insert_eq. }
      by destruct disk'. }
    split; [done|]. rewrite post_strings_string, Hkept. by eexists.
  - intros Hraw. unfold delete_string. by rewrite Hraw.
Qed.

(** X20. In a store the service can reach, each record sits under its id,
    which is the digest of its value, is not empty and is repeated in
    [sha256_hash]; its properties are the analysis of its value; and no two
    records hold the same value. *)
Theorem reachable_store_invariant (DB : store) :
  reachable DB →
  (∀ id r, DB !! id = Some r →
     id ≠ [] ∧
     StringRecord.id r = id ∧
     id = sha256Hex (StringRecord.value r) ∧
     Properties.sha256_hash (StringRecord.properties r) = id ∧
     StringRecord.properties r = analyzeString (StringRecord.value r) ∧
     Properties.length (StringRecord.properties r) = charLength (StringRecord.value r)) ∧
  (∀ id1 id2 r1 r2, DB !! id1 = Some r1 → DB !! id2 = Some r2 →
     StringRecord.value r1 = StringRecord.value r2 → id1 = id2 ∧ r1 = r2).
Proof.
  intros Hreach.
  assert (Hne : ∀ id r, DB !! id = Some r → id ≠ []).
  { induction Hreach as [|now disk body DB Hr IH|disk raw DB Hr IH]; intros id r Hl.
    - by rewrite lookup_empty in Hl.
    - destruct body as [| |value]; [by eapply IH..|].
      rewrite post_strings_string in Hl.
      destruct (DB !! sha256Hex value) as [old|] eqn:Eold; [by eapply IH|].
      destruct (sha256Hex value) as [|h hs] eqn:Eh; [by eapply IH|].
      cbn [fst] in Hl. destruct (decide (h :: hs = id)) as [<-|Hne]; [done|].
      rewrite lookup_insert_ne in Hl by done. by eapply IH.
    - unfold delete_string in Hl.
      destruct (decodeURIComponent raw) as [decoded|]; [|by eapply IH].
      unfold deleteById in Hl. destruct (DB !! sha256Hex decoded) eqn:E; [|by eapply IH].
      assert (Hl' : delete (sha256Hex decoded) DB !! id = Some r) by (by destruct disk).
      apply lookup_delete_Some in Hl' as [_ Hl']. by eapply IH. }
  split.
  - intros id r Hl. destruct (reachable_analysed DB Hreach id r Hl) as (H1 & H2 & H3).
    split; [by eapply Hne|]. split; [done|]. split; [done|].
    split; [by rewrite H3|]. split; [done|]. by rewrite H3.
  - intros id1 id2 r1 r2 Hl1 Hl2 Hv.
    destruct (reachable_analysed DB Hreach id1 r1 Hl1) as (_ & H1 & _).
    destruct (reachable_analysed DB Hreach id2 r2 Hl2) as (_ & H2 & _).
    assert (id1 = id2) as -> by congruence. split; [done|]. congruence.
Qed.

(** *** The natural-language route, end to end *)

(** X21. [GET /strings/filter-by-natural-language] answers 200, 400 or 422.
    A 200 answer repeats the query, carries the filters the parser returned
    and counts its data; in a store the service can reach every listed
    record is the one stored under the digest of its value, its value is a
    palindrome when the parser set [is_palindrome], and holds the
    character when the parser set [contains_character]. *)
Theorem natural_language_listing (q : option qsvalue) (DB : store) :
  reachable DB →
  (∃ code b, get_strings_natural q DB = Respond code b ∧ code ∈ [200; 400; 422]) ∧
  (∀ data count original parsed,
     get_strings_natural q DB = Respond 200 (InterpretedJson data count original parsed) →
     original = q ∧ parseNaturalLanguage q = inr parsed ∧ count = length data ∧
     ∀ r, r ∈ data →
          DB !! sha256Hex (StringRecord.value r) = Some r ∧
          (Filters.is_palindrome parsed = Some true →
           isPalindrome (StringRecord.value r) = true) ∧
          (∀ ch, Filters.contains_character parsed = Some ch →
                 ch ∈ codePoints (StringRecord.value r))).
Proof.
  intros Hreach.
  assert (Hin : ∀ code : nat, In code [200; 400; 422] → code ∈ [200; 400; 422])
    by (intros code Hc; by apply list_elem_of_In).
  unfold get_strings_natural. split.
  - destruct (parseNaturalLanguage q) as [err|parsed] eqn:Hp.
    + exists (status err), (ErrorJson (message err)). split; [done|]. apply Hin.
      unfold parseNaturalLanguage in Hp.
      assert (Hc : ∀ f, check_filters f = inl err → status err = 400 ∨ status err = 422).
      { intros f. unfold check_filters.
        destruct (Filters.keys f =? 0)%nat; [intros [= <-]; by left|].
        destruct (Filters.conflicting f); [intros [= <-]; by right|done]. }
      destruct q as [[[|u s]| |]|];
        first [ apply Hc in Hp as [-> | ->]; simpl; auto
              | injection Hp as <-; simpl; auto ].
    + eexists _, _. split; [done|]. apply Hin. simpl. auto.
  - intros data count original parsed.
    destruct (parseNaturalLanguage q) as [err|parsed'] eqn:Hp; [done|].
    intros [= <- <- <- <-]. split; [done|]. split; [done|]. split; [done|].
    intros r [[id Hl] Hm]%elem_of_listRecords.
    destruct (reachable_analysed DB Hreach id r Hl) as (_ & Hid & Hprops).
    apply matches_conjunction in Hm as (Hpal & _ & _ & _ & Hch).
    split; [by rewrite <- Hid|]. split.
    + intros Ht. specialize (Hpal true Ht). rewrite Hprops in Hpal.
      cbn [analyzeString Properties.is_palindrome] in Hpal.
      by destruct (isPalindrome (StringRecord.value r)).
    + intros ch Hc. specialize (Hch ch Hc). rewrite Hprops in Hch.
      cbn [analyzeString Properties.character_frequency_map] in Hch.
      rewrite charFrequencyMap_lookup in Hch.
      destruct (decide (ch ∈ codePoints (StringRecord.value r))); [done|].
      by destruct Hch.
Qed.
End Host.

(** ** Counterexamples to the statements the program does not meet *)

(** C3 as first stated, "longer than N" always sets [min_length = N + 1],
    fails at N = 2^53: the program answers 9007199254740992, since in
    binary64 arithmetic 2^53 + 1 rounds back to 2^53. *)
Lemma longer_than_2_53_not_incremented :
  ¬ (∀ text N,
       matched_number re_longer text = Some N →
       ∃ x, Filters.min_length (rule_longer text Filters.empty) = Some x ∧
            num_eq x (Finite (inject_Z (N + 1)))).
Proof.
  intros H.
  destruct (H (js "strings longer than 9007199254740992 characters")
              9007199254740992%Z) as (x & Hx & Heq); [by vm_compute|].
  vm_compute in Hx. injection Hx as <-. vm_compute in Heq. discriminate.
Qed.

(** C4 as first stated, any quoted single character is taken when the two
    "containing" expressions do not match, fails on the text ['!']: the
    program takes no character from it. *)
Lemma quoted_punctuation_not_taken :
  ¬ (∀ text,
       exec re_letter text = None → exec re_containing text = None →
       (∃ x, quoted_in x text) →
       ∃ x, quoted_in x text ∧
            Filters.contains_character (accumulate text) = Some [x]).
Proof.
  intros H.
  destruct (H [39; 33; 39]%N) as (x & _ & Hx); [done|done| |].
  - exists 33%N, 39%N, [], []. done.
  - vm_compute in Hx. discriminate.
Qed.

(** ** The assumptions are met: instances *)

Lemma isPalindrome_symmetric_pairs_witness :
  (∀ s, forallb isAscii s = true → asciiLowerCase s = asciiLower <$> s) ∧
  isPalindrome asciiLowerCase (js "Racecar") = true ∧
  isPalindrome asciiLowerCase (js "race a car") = false.
Proof.
  split; [done|].
  apply (isPalindrome_symmetric_pairs asciiLowerCase). done.
Defined.

Lemma min_length_rules_witness :
  (∀ s, forallb isAscii s = true → asciiLowerCase s = asciiLower <$> s) ∧
  matched_number re_longer (js "words longer than 41 letters, at least 7") = Some 41%Z ∧
  matched_number re_at_least (js "words longer than 41 letters, at least 7") = Some 7%Z ∧
  Filters.min_length (accumulate (js "words longer than 41 letters, at least 7")) =
  Some (Finite (inject_Z 42)) ∧
  parseNaturalLanguage asciiLowerCase
    (Some (QsString (js "strings longer than 10 characters"))) =
  inr (Filters.set_min_length (Finite (inject_Z 11)) Filters.empty).
Proof.
  assert (Hlower : ∀ s, forallb isAscii s = true → asciiLowerCase s = asciiLower <$> s)
    by done.
  destruct (min_length_rules asciiLowerCase Hlower) as (_ & _ & _ & _ & Hacc & Hex).
  split; [done|]. split; [by vm_compute|]. split; [by vm_compute|]. split; [|done].
  rewrite Hacc.
  - by vm_compute.
  - intros N HN. vm_compute in HN. injection HN as <-. done.
  - intros M HM. vm_compute in HM. injection HM as <-. done.
Defined.

Lemma contains_character_priority_witness :
  (∀ s, forallb isAscii s = true → asciiLowerCase s = asciiLower <$> s) ∧
  parseNaturalLanguage asciiLowerCase
    (Some (QsString (js "palindromic strings that contain the first vowel"))) =
  inr (Filters.set_contains_character (js "a")
         (Filters.set_is_palindrome true Filters.empty)).
Proof.
  split; [done|].
  apply (contains_character_priority asciiLowerCase). done.
Defined.

Lemma matches_iff_every_field_agrees_witness :
  let DB1 := (post_strings asciiLowerCase taggedDigest 0 true
                (ValueString (js "level")) ∅).1 in
  let id := taggedDigest (js "level") in
  let r := StringRecord.mk id (js "level")
             (analyzeString asciiLowerCase taggedDigest (js "level")) 0 in
  let filters := Filters.mk (Some true) (Some (Finite (inject_Z 3))) None
                   (Some (Finite (inject_Z 1))) (Some (js "l")) in
  reachable asciiLowerCase taggedDigest decodeUnescaped DB1 ∧
  DB1 !! id = Some r ∧
  no_NaN filters ∧
  matches filters r = true ∧
  ∃ k, Properties.character_frequency_map (StringRecord.properties r) !! js "l" = Some k
       ∧ k ≠ 0.
Proof.
  intros DB1 id r filters.
  assert (H1 : reachable asciiLowerCase taggedDigest decodeUnescaped DB1)
    by apply reachable_post, reachable_empty.
  assert (H2 : DB1 !! id = Some r) by (by vm_compute).
  assert (H3 : no_NaN filters) by done.
  assert (H4 : matches filters r = true) by (by vm_compute).
  repeat split; try done.
  apply (matches_iff_every_field_agrees asciiLowerCase taggedDigest decodeUnescaped
           DB1 id r filters H1 H2 H3) in H4 as (_ & _ & _ & _ & Hch).
  by apply Hch.
Defined.

Lemma duplicate_insert_rejected_witness :
  let first := post_strings asciiLowerCase taggedDigest 0 true (ValueString (js "level")) ∅ in
  let r := StringRecord.mk (taggedDigest (js "level")) (js "level")
             (analyzeString asciiLowerCase taggedDigest (js "level")) 0 in
  first = (first.1, Respond 201 (RecordJson r)) ∧
  AlreadyExists
    (post_strings asciiLowerCase taggedDigest 1 true (ValueString (js "level")) first.1).2 ∧
  (post_strings asciiLowerCase taggedDigest 1 true (ValueString (js "level")) first.1).1
  = first.1.
Proof.
  intros first r.
  assert (H : first = (first.1, Respond 201 (RecordJson r))) by (by vm_compute).
  split; [done|].
  destruct (duplicate_insert_rejected asciiLowerCase taggedDigest ∅ first.1
              (js "level") 0 1 true true r H) as (Ha & Hs & _).
  done.
Defined.

Lemma insert_lookup_delete_witness :
  let first := post_strings asciiLowerCase taggedDigest 0 true (ValueString (js "level")) ∅ in
  let r := StringRecord.mk (taggedDigest (js "level")) (js "level")
             (analyzeString asciiLowerCase taggedDigest (js "level")) 0 in
  first = (first.1, Respond 201 (RecordJson r)) ∧
  decodeUnescaped (js "level") = Some (js "level") ∧
  get_string taggedDigest decodeUnescaped (js "level") first.1 = Respond 200 (RecordJson r) ∧
  NotFound (get_string taggedDigest decodeUnescaped (js "level")
              (delete_string taggedDigest decodeUnescaped true (js "level") first.1).1).
Proof.
  intros first r.
  assert (H : first = (first.1, Respond 201 (RecordJson r))) by (by vm_compute).
  assert (Hd : decodeUnescaped (js "level") = Some (js "level")) by (by vm_compute).
  split; [done|]. split; [done|].
  destruct (insert_lookup_delete asciiLowerCase taggedDigest decodeUnescaped ∅ first.1
              (js "level") (js "level") 0 true r H Hd) as (Hg & _ & Hdel).
  split; [done|]. apply (Hdel true).
Defined.

Lemma wordCount_separator_witness :
  isWhiteSpace 32 = true ∧
  wordCount (js "hello" ++ 32%N :: js "big world") = 1 + 2.
Proof.
  split; [done|].
  destruct (wordCount_separator (js "hello") (js "big world") 32 eq_refl) as [H _].
  rewrite H. by vm_compute.
Defined.

Lemma isPalindrome_ascii_ignores_case_witness :
  (∀ s, forallb isAscii s = true → asciiLowerCase s = asciiLower <$> s) ∧
  forallb isAscii (js "Never odd or even") = true ∧
  isPalindrome asciiLowerCase (js "Never odd or even") =
  isPalindrome asciiLowerCase (js "NEVER ODD OR EVEN").
Proof.
  assert (Hlower : ∀ s, forallb isAscii s = true → asciiLowerCase s = asciiLower <$> s)
    by done.
  split; [done|]. split; [done|].
  destruct (isPalindrome_ascii_ignores_case asciiLowerCase Hlower
              (js "Never odd or even") eq_refl) as [_ H].
  apply H; by vm_compute.
Defined.

Lemma shorter_than_rule_witness :
  (∀ N, matched_number re_shorter (js "strings shorter than 0") = Some N → (N ≤ 2 ^ 53)%Z) ∧
  Filters.max_length (accumulate (js "strings shorter than 0")) =
  Some (Finite (inject_Z (-1))).
Proof.
  assert (H : ∀ N, matched_number re_shorter (js "strings shorter than 0") = Some N →
                   (N ≤ 2 ^ 53)%Z).
  { intros N HN. vm_compute in HN. injection HN as <-. done. }
  split; [done|].
  rewrite (shorter_than_rule (js "strings shorter than 0") H). by vm_compute.
Defined.

Lemma parseNaturalLanguage_returns_witness :
  let q := Some (QsString (js "one word strings shorter than 9 containing the letter k")) in
  let filters := Filters.mk None None (Some (Finite (inject_Z 8)))
                   (Some (Finite (inject_Z 1))) (Some (js "k")) in
  parseNaturalLanguage asciiLowerCase q = inr filters ∧
  1 ≤ Filters.keys filters.
Proof.
  intros q filters.
  assert (H : parseNaturalLanguage asciiLowerCase q = inr filters) by (by vm_compute).
  split; [done|].
  apply (parseNaturalLanguage_returns asciiLowerCase q filters H).
Defined.

Lemma decimal_bounds_validated_witness :
  forallb isDigit (js "20") = true ∧ digitsValue 10 (js "20") = Some 20%Z ∧
  forallb isDigit (js "5") = true ∧ digitsValue 10 (js "5") = Some 5%Z ∧
  validate asciiLowerCase
    (Query.mk None (Some (QsString (js "20"))) (Some (QsString (js "5"))) None None) =
  inl (Respond 400 (ErrorJson "min_length cannot be greater than max_length")).
Proof.
  repeat (split; [done|]).
  destruct (decimal_bounds_validated asciiLowerCase (js "20") (js "5") 20 5
              eq_refl eq_refl ltac:(done) eq_refl eq_refl ltac:(done)) as (_ & _ & H).
  exact H.
Defined.

Lemma blank_parameter_is_zero_witness :
  forallb isWhiteSpace (js "  ") = true ∧
  Number_of (QsString (js "  ")) = Finite 0.
Proof.
  split; [done|].
  apply (blank_parameter_is_zero asciiLowerCase (js "  ") eq_refl).
Defined.

Lemma matches_integer_bounds_witness :
  let r := StringRecord.mk (taggedDigest (js "racecar")) (js "racecar")
             (analyzeString asciiLowerCase taggedDigest (js "racecar")) 0 in
  (Z.of_nat (Properties.length (StringRecord.properties r)) ≤ 2 ^ 53)%Z ∧
  matches (Filters.mk None (Some (Finite (inject_Z 5))) (Some (Finite (inject_Z 10)))
             None None) r = true ∧
  matches (Filters.mk None (Some (Finite (inject_Z 8))) None None None) r ≠ true.
Proof.
  intros r.
  assert (H : (Z.of_nat (Properties.length (StringRecord.properties r)) ≤ 2 ^ 53)%Z)
    by (by vm_compute).
  split; [done|]. split.
  - apply (matches_integer_bounds r (Some 5%Z) (Some 10%Z) H).
    split; intros ? [= <-]; by vm_compute.
  - intros Hm. apply (matches_integer_bounds r (Some 8%Z) None H) in Hm as [Hlo _].
    specialize (Hlo 8%Z eq_refl). vm_compute in Hlo. by apply Hlo.
Defined.

Lemma listRecords_newest_first_witness :
  let DB1 := (post_strings asciiLowerCase taggedDigest 10 true (ValueString (js "b"))
                (post_strings asciiLowerCase taggedDigest 5 true (ValueString (js "a")) ∅).1).1 in
  ∃ a b, 0 < 1 ∧ listRecords Filters.empty DB1 !! 0 = Some a ∧
         listRecords Filters.empty DB1 !! 1 = Some b ∧
         (StringRecord.created_at b ≤ StringRecord.created_at a)%Z.
Proof.
  intros DB1.
  destruct (listRecords Filters.empty DB1 !! 0) as [a|] eqn:Ea; [|by vm_compute in Ea].
  destruct (listRecords Filters.empty DB1 !! 1) as [b|] eqn:Eb; [|by vm_compute in Eb].
  exists a, b. split; [lia|]. split; [done|]. split; [done|].
  exact (listRecords_newest_first Filters.empty DB1 0 1 a b ltac:(lia) Ea Eb).
Defined.

Lemma post_strings_failed_write_keeps_record_witness :
  taggedDigest (js "level") ≠ [] ∧
  (∅ : store) !! taggedDigest (js "level") = None ∧
  (post_strings asciiLowerCase taggedDigest 0 false (ValueString (js "level")) ∅).2 =
    Respond 500 (ErrorJson "Server error") ∧
  AlreadyExists
    (post_strings asciiLowerCase taggedDigest 1 true (ValueString (js "level"))
       (post_strings asciiLowerCase taggedDigest 0 false (ValueString (js "level")) ∅).1).2.
Proof.
  assert (H1 : taggedDigest (js "level") ≠ []) by done.
  assert (H2 : (∅ : store) !! taggedDigest (js "level") = None) by done.
  repeat (split; [done|]).
  destruct (post_strings_failed_write_keeps_record asciiLowerCase taggedDigest
              decodeUnescaped 0 1 true (js "level") ∅ H1 H2)
    as (Ha & _ & _ & _ & Hb).
  done.
Defined.

Lemma delete_string_effect_witness :
  let DB1 := (post_strings asciiLowerCase taggedDigest 0 true (ValueString (js "level")) ∅).1 in
  decodeUnescaped (js "level") = Some (js "level") ∧
  (delete_string taggedDigest decodeUnescaped false (js "level") DB1).1
    !! taggedDigest (js "level") = None.
Proof.
  intros DB1.
  assert (H : decodeUnescaped (js "level") = Some (js "level")) by (by vm_compute).
  split; [done|].
  apply (delete_string_effect taggedDigest decodeUnescaped false (js "level") (js "level")
           DB1 H).
Defined.

Lemma delete_then_insert_again_witness :
  let first := post_strings asciiLowerCase taggedDigest 0 true (ValueString (js "level")) ∅ in
  let r := StringRecord.mk (taggedDigest (js "level")) (js "level")
             (analyzeString asciiLowerCase taggedDigest (js "level")) 0 in
  first = (first.1, Respond 201 (RecordJson r)) ∧
  decodeUnescaped (js "level") = Some (js "level") ∧
  (delete_string taggedDigest decodeUnescaped true (js "level") first.1).1 = ∅.
Proof.
  intros first r.
  assert (H : first = (first.1, Respond 201 (RecordJson r))) by (by vm_compute).
  assert (Hd : decodeUnescaped (js "level") = Some (js "level")) by (by vm_compute).
  split; [done|]. split; [done|].
  destruct (delete_then_insert_again asciiLowerCase taggedDigest decodeUnescaped ∅ first.1
              (js "level") (js "level") 0 1 true true r H) as [Hsame _].
  by destruct (Hsame Hd) as [Hback _].
Defined.

Lemma reachable_store_invariant_witness :
  let DB1 := (post_strings asciiLowerCase taggedDigest 0 true (ValueString (js "level")) ∅).1 in
  reachable asciiLowerCase taggedDigest decodeUnescaped DB1 ∧
  ∀ id r, DB1 !! id = Some r → id = taggedDigest (StringRecord.value r).
Proof.
  intros DB1.
  assert (H : reachable asciiLowerCase taggedDigest decodeUnescaped DB1)
    by apply reachable_post, reachable_empty.
  split; [done|]. intros id r Hl.
  destruct (reachable_store_invariant asciiLowerCase taggedDigest decodeUnescaped DB1 H)
    as [Hinv _].
  by destruct (Hinv id r Hl) as (_ & _ & Hid & _).
Defined.

Lemma natural_language_listing_witness :
  let DB1 := (post_strings asciiLowerCase taggedDigest 0 true (ValueString (js "level")) ∅).1 in
  reachable asciiLowerCase taggedDigest decodeUnescaped DB1 ∧
  ∃ code b,
    get_strings_natural asciiLowerCase
      (Some (QsString (js "all single word palindromic strings"))) DB1 = Respond code b ∧
    code ∈ [200; 400; 422].
Proof.
  intros DB1.
  assert (H : reachable asciiLowerCase taggedDigest decodeUnescaped DB1)
    by apply reachable_post, reachable_empty.
  split; [done|].
  apply (natural_language_listing asciiLowerCase taggedDigest decodeUnescaped
           (Some (QsString (js "all single word palindromic strings"))) DB1 H).
Defined.

Lemma decodeUnescaped_incomplete_escape (pre after : jsstring) :
  incomplete_escape after = true → decodeUnescaped (pre ++ 37%N :: after) = None.
Proof.
  intros _. unfold decodeUnescaped. rewrite bool_decide_eq_true_2; [done|].
  apply elem_of_app. right. left.
Qed.

Lemma percent_string_lookup_refused_witness :
  let first := post_strings asciiLowerCase taggedDigest 0 true (ValueString (js "100%")) ∅ in
  let r := StringRecord.mk (taggedDigest (js "100%")) (js "100%")
             (analyzeString asciiLowerCase taggedDigest (js "100%")) 0 in
  first = (first.1, Respond 201 (RecordJson r)) ∧
  js "100%" = js "100" ++ 37%N :: [] ∧
  incomplete_escape [] = true ∧
  get_string taggedDigest decodeUnescaped (js "100%") first.1 =
    Respond 400 (ErrorJson "Invalid URL-encoded string") ∧
  delete_string taggedDigest decodeUnescaped true (js "100%") first.1 =
    (first.1, Respond 400 (ErrorJson "Invalid URL-encoded string")).
Proof.
  intros first r.
  assert (H : first = (first.1, Respond 201 (RecordJson r))) by (by vm_compute).
  assert (Hs : js "100%" = js "100" ++ 37%N :: []) by (by vm_compute).
  assert (Hi : incomplete_escape [] = true) by done.
  split; [done|]. split; [done|]. split; [done|].
  destruct (percent_string_lookup_refused asciiLowerCase taggedDigest decodeUnescaped
              decodeUnescaped_incomplete_escape ∅ first.1 (js "100%") (js "100") []
              0 true r H Hs Hi) as (_ & Hget & _ & Hdel).
  split; [done|]. apply (Hdel true).
Defined.
